(** * NuBanner course-seat watcher: a model of [new_nu_check/new_main.go]

    The Go program keeps one registry, [subscriptions], from an e-mail
    address to the stop channel of the goroutine that polls the
    enrollment page for that address.  Two HTTP handlers start and stop a
    watch; both take [subscriptionsMux] around their work on the map.

    The definitions come in two modules.

    - [Seats]: the text side, [parseAvailableSeats] with the regular
      expression it compiles and [strconv.Atoi].
    - [Server]: the handlers and the polling goroutine as a small-step
      machine, one step per statement that touches shared state or can
      block, with the scheduler and the outside world (HTTP replies,
      SMTP results) as the labels of the steps; the invariant of the
      reachable states; a few runs.

    The facts follow: the parser, the invariant and its preservation by
    every step, requests served without interruption, and then the
    properties of the registry, of the polling and of cancellation. *)

From stdpp Require Import gmap strings list.
From Stdlib Require Import ZArith Ascii DecimalString.

Local Open Scope Z_scope.

(** Go's [error] values that the program creates or passes on. *)
Inductive error : Type :=
  | ErrNoSeats                 (* errors.New("could not find available seats in HTML") *)
  | ErrSyntax (s : string)     (* strconv.ErrSyntax, wrapped in a NumError *)
  | ErrRange (s : string)      (* strconv.ErrRange, wrapped in a NumError *)
  | ErrNewRequest              (* http.NewRequest failed *)
  | ErrDo                      (* client.Do failed *)
  | ErrReadAll                 (* ioutil.ReadAll failed *)
  | ErrSendMail.               (* smtp.SendMail failed *)

Global Instance error_eq_dec : EqDecision error.
Proof. solve_decision. Defined.

Module Seats.

(** ** Strings

    A Go string is a sequence of bytes; [string] is the same thing.  The
    regular expression below is pure ASCII, so that matching bytes and
    matching runes agree. *)

Fixpoint strip_prefix (p s : string) : option string :=
  match p, s with
  | EmptyString, _ => Some s
  | String a p', String b s' =>
      if Ascii.eqb a b then strip_prefix p' s' else None
  | String _ _, EmptyString => None
  end.

(** [\d] of Go's regexp syntax: an ASCII digit. *)
Definition is_digit (c : ascii) : bool :=
  ((48 <=? nat_of_ascii c) && (nat_of_ascii c <=? 57))%nat.

Fixpoint all_digits (s : string) : bool :=
  match s with
  | EmptyString => true
  | String c s' => is_digit c && all_digits s'
  end.

(** The longest run of digits at the head of [s], and what follows it. *)
Fixpoint span_digits (s : string) : string * string :=
  match s with
  | EmptyString => (EmptyString, EmptyString)
  | String c s' =>
      if is_digit c
      then (String c (span_digits s').1, (span_digits s').2)
      else (EmptyString, s)
  end.

(** ** The regular expression of [parseAvailableSeats], line 129

    [Enrollment Seats Available:</span> <span dir="ltr"> (-?\d+) </span>]

    a literal, one capture group made of an optional minus sign and a
    greedy non-empty run of digits, and a literal. *)

Definition dquote : ascii := ascii_of_nat 34.

Definition seatsPrefix : string :=
  "Enrollment Seats Available:</span> <span dir="
    +:+ String dquote ("ltr" +:+ String dquote "> ").

Definition seatsSuffix : string := " </span>".

(** The text of a whole match whose group is [cap]. *)
Definition seatsMatch (cap : string) : string :=
  seatsPrefix +:+ cap +:+ seatsSuffix.

(** [-?] *)
Definition opt_minus (s : string) : string * string :=
  match s with
  | String "-" r => ("-", r)
  | _ => ("", s)
  end.

(** The match of the expression that starts at the head of [s], as its
    capture group.  Nothing here backtracks: the minus sign, when there,
    cannot be a digit, and the run of digits is followed by a space. *)
Definition match_here (s : string) : option string :=
  match strip_prefix seatsPrefix s with
  | None => None
  | Some s1 =>
      let '(sign, s2) := opt_minus s1 in
      let '(ds, s3) := span_digits s2 in
      match ds with
      | EmptyString => None
      | String _ _ =>
          match strip_prefix seatsSuffix s3 with
          | None => None
          | Some _ => Some (sign +:+ ds)
          end
      end
  end.

(** [re.FindStringSubmatch]: the leftmost match, as the matched text
    followed by the group; no element when there is no match. *)
Fixpoint FindStringSubmatch (s : string) : list string :=
  match match_here s with
  | Some cap => [seatsMatch cap; cap]
  | None =>
      match s with
      | EmptyString => []
      | String _ s' => FindStringSubmatch s'
      end
  end.

(** ** [strconv.Atoi], for the 64-bit [int] of the platforms Go runs this
    program on *)

Definition intSize : Z := 64.
Definition maxInt : Z := 2 ^ (intSize - 1) - 1.
Definition minInt : Z := - 2 ^ (intSize - 1).

Definition digit_val (c : ascii) : Z := Z.of_nat (nat_of_ascii c) - 48.

(** [n = n*10 + int(ch)] over the bytes, from [acc]. *)
Fixpoint decimal_from (acc : Z) (s : string) : Z :=
  match s with
  | EmptyString => acc
  | String c s' => decimal_from (acc * 10 + digit_val c) s'
  end.

(** The integer a signed decimal numeral denotes. *)
Definition int_of_decimal (s : string) : Z :=
  match s with
  | String "-" r => - decimal_from 0 r
  | String "+" r => decimal_from 0 r
  | _ => decimal_from 0 s
  end.

Definition Atoi (s : string) : Z * option error :=
  let body := match s with
              | String "-" r => r
              | String "+" r => r
              | _ => s
              end in
  match body with
  | EmptyString => (0, Some (ErrSyntax s))
  | String _ _ =>
      if all_digits body then
        let n := int_of_decimal s in
        if n <? minInt then (minInt, Some (ErrRange s))
        else if maxInt <? n then (maxInt, Some (ErrRange s))
        else (n, None)
      else (0, Some (ErrSyntax s))
  end.

(** [strconv.Itoa] *)
Definition Itoa (n : Z) : string := NilZero.string_of_int (Z.to_int n).

(** ** [parseAvailableSeats], lines 128-136 *)
Definition parseAvailableSeats (htmlStr : string) : Z * option error :=
  let matches := FindStringSubmatch htmlStr in
  if (length matches <? 2)%nat
  then (0, Some ErrNoSeats)
  else Atoi (nth 1 matches EmptyString).

(** ** What the claim about the parser speaks of *)

(** A text the group [(-?\d+)] can capture. *)
Definition is_number (cap : string) : Prop :=
  ∃ ds, ds ≠ EmptyString ∧ all_digits ds = true
        ∧ (cap = ds ∨ cap = String "-" ds).

(** The page has a match of the expression with group [cap], after
    [pre] and before [post]. *)
Definition match_at (html pre cap post : string) : Prop :=
  is_number cap ∧ html = pre +:+ seatsMatch cap +:+ post.

(** "The input HTML contains the enrollment-seats pattern." *)
Definition contains_pattern (html : string) : Prop :=
  ∃ pre cap post, match_at html pre cap post.

(** [cap] is the group of the leftmost match. *)
Definition leftmost_capture (html cap : string) : Prop :=
  ∃ pre post,
    match_at html pre cap post
    ∧ ∀ pre' cap' post',
        match_at html pre' cap' post' →
        (String.length pre ≤ String.length pre')%nat.

Definition in_int_range (n : Z) : Prop := minInt ≤ n ≤ maxInt.

(** A page of the registration site, reduced to the line that counts. *)
Definition page (n : string) : string :=
  "<span class='status-bold'>" +:+ seatsMatch n +:+ "<br/>".

(** The parser fails exactly on the pages without the pattern. *)
Definition fails_iff_no_pattern (html : string) : Prop :=
  is_Some (parseAvailableSeats html).2 ↔ ¬ contains_pattern html.

End Seats.

Module Server.
Import Seats.

(** ** Data *)

(** A channel made by [make(chan bool)], by the order of its creation. *)
Definition chan : Type := nat.

Inductive request : Type :=
  | Start (email crn : string)   (* POST /start-course-check *)
  | Stop (email : string).       (* POST /stop-course-check *)

(** What a handler answers, under the names the specification gives to
    the results of [Start] and [Stop]. *)
Inductive response : Type :=
  | BadRequest      (* 400, a query parameter is empty *)
  | AlreadyActive   (* 400, "A check is already running for this email" *)
  | Started         (* 200, "Course availability check started for ..." *)
  | Stopped         (* 200, "Course check stopped for ..." *)
  | NotFound.       (* 400, "No active check found for this email" *)

Global Instance response_eq_dec : EqDecision response.
Proof. solve_decision. Defined.

(** Where a handler stands: the statement it runs next. *)
Inductive hpc : Type :=
  | StartEntry (email crn : string)                      (* lines 36-41 *)
  | StartLock (email crn : string)                       (* line 43 *)
  | StartCheck (email crn : string)                      (* line 44 *)
  | StartDupUnlock (email crn : string)                  (* lines 45-47 *)
  | StartInsert (email crn : string)                     (* lines 50-51 *)
  | StartUnlock (email crn : string) (stopChan : chan)   (* line 52 *)
  | StartGo (email crn : string) (stopChan : chan)       (* lines 54-55 *)
  | StopEntry (email : string)                           (* lines 59-63 *)
  | StopLock (email : string)                            (* line 65 *)
  | StopLookup (email : string)                          (* line 66 *)
  | StopSend (email : string) (stopChan : chan)          (* line 67 *)
  | StopClose (email : string) (stopChan : chan)         (* line 68 *)
  | StopDelete (email : string) (stopChan : chan)        (* line 69 *)
  | StopUnlock (email : string)                          (* lines 70-72 *)
  | StopMissUnlock (email : string)                      (* lines 74-76 *)
  | Done (r : response).

Global Instance hpc_eq_dec : EqDecision hpc.
Proof. solve_decision. Defined.

(** Where a [checkCourseAvailability] goroutine stands. *)
Inductive wpc : Type :=
  | WSelect     (* blocked in the select of line 84 *)
  | WRequest    (* a tick was taken: lines 86-120 are under way *)
  | WReturned.  (* the function has returned *)

Global Instance wpc_eq_dec : EqDecision wpc.
Proof. solve_decision. Defined.

Record watcher : Type := Watcher {
  w_email : string;
  w_crn : string;
  w_stopChan : chan;
  w_pc : wpc
}.

Global Instance watcher_eq_dec : EqDecision watcher.
Proof. solve_decision. Defined.

(** What line 86 to 110 obtain from the network. *)
Inductive http_outcome : Type :=
  | HttpNewRequestErr        (* line 92 *)
  | HttpDoErr                (* line 100 *)
  | HttpReadErr              (* line 107 *)
  | HttpBody (body : string).

Inductive logline : Type :=
  | LogCreateRequest         (* "Error creating request: " *)
  | LogMakeRequest           (* "Error making request: " *)
  | LogReadBody              (* "Error reading response body: " *)
  | LogParse (e : error)     (* "Error parsing available seats: " *)
  | LogMailError (e : error) (* "Error sending email: " *)
  | LogMailSent (email : string)   (* "Send Notification to" ... *)
  | LogStopping (email : string).  (* "Stopping course check for" *)

(** What the program does that the outside can see. *)
Inductive event : Type :=
  | EvCheck (wid : nat) (crn : string)
      (* goroutine [wid] starts an availability check of [crn] *)
  | EvSendMail (wid : nat) (email : string) (availableSeats : Z)
               (crn : string) (message : string)
      (* smtp.SendMail to [email] *)
  | EvLog (wid : nat) (l : logline)
  | EvSignal (c : chan)      (* [c <- true] was received *)
  | EvClose (c : chan)
  | EvRespond (tid : nat) (r : response).

Global Instance logline_eq_dec : EqDecision logline.
Proof. solve_decision. Defined.
Global Instance event_eq_dec : EqDecision event.
Proof. solve_decision. Defined.

(** The globals of lines 18-21, the channels, the requests being served,
    the goroutines, and what happened so far. *)
Record state : Type := State {
  subscriptions : gmap string chan;
  subscriptionsMux : option nat;     (* the handler that holds the mutex *)
  chans : nat;                       (* channels made so far *)
  closed : list chan;
  handlers : list hpc;
  goroutines : list watcher;
  trace : list event
}.

Definition init : state :=
  State ∅ None 0 [] [] [] [].

(** ** The polling goroutine *)

(** Lines 138-155.  [smtp] is what [smtp.SendMail] returns. *)
Definition sendEmailNotification (wid : nat) (email : string)
    (availableSeats : Z) (crn : string) (smtp : option error) : list event :=
  let message :=
    "Subject: Course Slot Available" +:+ String (ascii_of_nat 13)
      (String (ascii_of_nat 10) (String (ascii_of_nat 13)
      (String (ascii_of_nat 10)
        ("A slot is available. There are " +:+ Itoa availableSeats
           +:+ " seats available for you subscribe course: " +:+ crn)))) in
  [EvSendMail wid email availableSeats crn message;
   match smtp with
   | Some err => EvLog wid (LogMailError err)
   | None => EvLog wid (LogMailSent email)
   end].

(** Lines 86-120, one pass through the tick branch: what is done, and
    where the goroutine stands afterwards. *)
Definition pollOnce (wid : nat) (email crn : string) (o : http_outcome)
    (smtp : option error) : list event * wpc :=
  match o with
  | HttpNewRequestErr => ([EvLog wid LogCreateRequest], WReturned)
  | HttpDoErr => ([EvLog wid LogMakeRequest], WReturned)
  | HttpReadErr => ([EvLog wid LogReadBody], WReturned)
  | HttpBody body =>
      match parseAvailableSeats body with
      | (_, Some err) => ([EvLog wid (LogParse err)], WReturned)
      | (availableSeats, None) =>
          if 0 <? availableSeats
          then (sendEmailNotification wid email availableSeats crn smtp,
                WSelect)
          else ([], WSelect)
      end
  end.

(** The goroutine that a send on [c] wakes: one that waits in its select
    with [c] as its stop channel. *)
Fixpoint receiver (c : chan) (ws : list watcher) : option nat :=
  match ws with
  | [] => None
  | w :: ws' =>
      if decide (w_stopChan w = c ∧ w_pc w = WSelect)
      then Some 0%nat
      else S <$> receiver c ws'
  end.

(** ** Steps *)

Definition goto (tid : nat) (pc : hpc) (s : state) : state :=
  State (subscriptions s) (subscriptionsMux s) (chans s) (closed s)
        (<[tid := pc]> (handlers s)) (goroutines s) (trace s).

Definition respond (tid : nat) (r : response) (s : state) : state :=
  State (subscriptions s) (subscriptionsMux s) (chans s) (closed s)
        (<[tid := Done r]> (handlers s)) (goroutines s)
        (trace s ++ [EvRespond tid r]).

Definition set_mux (m : option nat) (s : state) : state :=
  State (subscriptions s) m (chans s) (closed s)
        (handlers s) (goroutines s) (trace s).

Definition set_subscriptions (m : gmap string chan) (s : state) : state :=
  State m (subscriptionsMux s) (chans s) (closed s)
        (handlers s) (goroutines s) (trace s).

Definition make_chan (s : state) : state :=
  State (subscriptions s) (subscriptionsMux s) (S (chans s)) (closed s)
        (handlers s) (goroutines s) (trace s).

Definition close_chan (c : chan) (s : state) : state :=
  State (subscriptions s) (subscriptionsMux s) (chans s) (c :: closed s)
        (handlers s) (goroutines s) (trace s ++ [EvClose c]).

Definition spawn (w : watcher) (s : state) : state :=
  State (subscriptions s) (subscriptionsMux s) (chans s) (closed s)
        (handlers s) (goroutines s ++ [w]) (trace s).

Definition at_pc (pc : wpc) (w : watcher) : watcher :=
  Watcher (w_email w) (w_crn w) (w_stopChan w) pc.

Definition set_wpc (wid : nat) (pc : wpc) (s : state) : state :=
  State (subscriptions s) (subscriptionsMux s) (chans s) (closed s)
        (handlers s) (alter (at_pc pc) wid (goroutines s)) (trace s).

Definition emit (evs : list event) (s : state) : state :=
  State (subscriptions s) (subscriptionsMux s) (chans s) (closed s)
        (handlers s) (goroutines s) (trace s ++ evs).

(** [subscriptionsMux.Lock()]: no step while another handler holds it. *)
Definition lock (tid : nat) (next : hpc) (s : state) : option state :=
  match subscriptionsMux s with
  | Some _ => None
  | None => Some (goto tid next (set_mux (Some tid) s))
  end.

(** One statement of handler [tid]; [None] when the handler cannot move:
    it waits for the mutex or for a receiver, it has answered, or the
    statement panics (a send on, or a close of, a closed channel). *)
Definition handler_step (tid : nat) (s : state) : option state :=
  match handlers s !! tid with
  | None => None
  | Some pc =>
      match pc with
      | StartEntry email crn =>
          if decide (email = EmptyString ∨ crn = EmptyString)
          then Some (respond tid BadRequest s)
          else Some (goto tid (StartLock email crn) s)
      | StartLock email crn => lock tid (StartCheck email crn) s
      | StartCheck email crn =>
          match subscriptions s !! email with
          | Some _ => Some (goto tid (StartDupUnlock email crn) s)
          | None => Some (goto tid (StartInsert email crn) s)
          end
      | StartDupUnlock email crn =>
          Some (respond tid AlreadyActive (set_mux None s))
      | StartInsert email crn =>
          let stopChan := chans s in
          Some (goto tid (StartUnlock email crn stopChan)
                  (set_subscriptions (<[email := stopChan]> (subscriptions s))
                     (make_chan s)))
      | StartUnlock email crn stopChan =>
          Some (goto tid (StartGo email crn stopChan) (set_mux None s))
      | StartGo email crn stopChan =>
          Some (respond tid Started
                  (spawn (Watcher email crn stopChan WSelect) s))
      | StopEntry email =>
          if decide (email = EmptyString)
          then Some (respond tid BadRequest s)
          else Some (goto tid (StopLock email) s)
      | StopLock email => lock tid (StopLookup email) s
      | StopLookup email =>
          match subscriptions s !! email with
          | Some stopChan => Some (goto tid (StopSend email stopChan) s)
          | None => Some (goto tid (StopMissUnlock email) s)
          end
      | StopSend email stopChan =>
          if decide (stopChan ∈ closed s) then None
          else
            match receiver stopChan (goroutines s) with
            | None => None
            | Some wid =>
                let who := default EmptyString
                             (w_email <$> goroutines s !! wid) in
                Some (goto tid (StopClose email stopChan)
                        (emit [EvSignal stopChan; EvLog wid (LogStopping who)]
                           (set_wpc wid WReturned s)))
            end
      | StopClose email stopChan =>
          if decide (stopChan ∈ closed s) then None
          else Some (goto tid (StopDelete email stopChan)
                       (close_chan stopChan s))
      | StopDelete email stopChan =>
          Some (goto tid (StopUnlock email)
                  (set_subscriptions (delete email (subscriptions s)) s))
      | StopUnlock email => Some (respond tid Stopped (set_mux None s))
      | StopMissUnlock email => Some (respond tid NotFound (set_mux None s))
      | Done _ => None
      end
  end.

(** What the scheduler and the outside world decide. *)
Inductive label : Type :=
  | Arrive (r : request)       (* gin hands a request to a new handler *)
  | Handler (tid : nat)        (* handler [tid] runs one statement *)
  | Tick (wid : nat)           (* goroutine [wid] receives from ticker.C *)
  | Reply (wid : nat) (o : http_outcome) (smtp : option error)
                               (* the exchange of goroutine [wid] ends *)
  | ClosedRecv (wid : nat).    (* goroutine [wid] receives from its closed
                                  stop channel *)

Definition entry (r : request) : hpc :=
  match r with
  | Start email crn => StartEntry email crn
  | Stop email => StopEntry email
  end.

Definition arrive (r : request) (s : state) : state :=
  State (subscriptions s) (subscriptionsMux s) (chans s) (closed s)
        (handlers s ++ [entry r]) (goroutines s) (trace s).

Definition step (l : label) (s : state) : option state :=
  match l with
  | Arrive r => Some (arrive r s)
  | Handler tid => handler_step tid s
  | Tick wid =>
      match goroutines s !! wid with
      | Some (Watcher _ crn _ WSelect) =>
          Some (emit [EvCheck wid crn] (set_wpc wid WRequest s))
      | _ => None
      end
  | Reply wid o smtp =>
      match goroutines s !! wid with
      | Some (Watcher email crn _ WRequest) =>
          let '(evs, pc) := pollOnce wid email crn o smtp in
          Some (emit evs (set_wpc wid pc s))
      | _ => None
      end
  | ClosedRecv wid =>
      match goroutines s !! wid with
      | Some (Watcher email _ stopChan WSelect) =>
          if decide (stopChan ∈ closed s)
          then Some (emit [EvLog wid (LogStopping email)]
                       (set_wpc wid WReturned s))
          else None
      | _ => None
      end
  end.

Fixpoint exec (ls : list label) (s : state) : option state :=
  match ls with
  | [] => Some s
  | l :: ls' =>
      match step l s with
      | None => None
      | Some s' => exec ls' s'
      end
  end.

Definition reachable (s : state) : Prop :=
  ∃ ls, exec ls init = Some s.

(** ** A request served without interruption

    The handler of a fresh request runs until it answers; [None] when it
    gets stuck on the way.  No handler has more than seven statements. *)
Fixpoint run_handler (fuel : nat) (tid : nat) (s : state)
    : option (response * state) :=
  match handlers s !! tid with
  | Some (Done r) => Some (r, s)
  | _ =>
      match fuel with
      | O => None
      | S fuel' =>
          match handler_step tid s with
          | None => None
          | Some s' => run_handler fuel' tid s'
          end
      end
  end.

Definition serve (r : request) (s : state) : option (response * state) :=
  run_handler 8 (length (handlers s)) (arrive r s).

(** The state in which the handler numbered [length hs], the last one,
    stands at [pc]. *)
Definition serving (subs : gmap string chan) (mux : option nat)
    (n : nat) (cl : list chan) (hs : list hpc) (pc : hpc)
    (gs : list watcher) (tr : list event) : state :=
  State subs mux n cl (hs ++ [pc]) gs tr.

(** The answer alone; [None] when the handler never answers. *)
Definition answer (r : request) (s : state) : option response :=
  match serve r s with
  | Some (a, _) => Some a
  | None => None
  end.

(** ** What holds in every state the program reaches *)

(** The handler stands inside [Lock() ... Unlock()]. *)
Definition holds_lock (pc : hpc) : Prop :=
  match pc with
  | StartCheck _ _ | StartDupUnlock _ _ | StartInsert _ _
  | StartUnlock _ _ _
  | StopLookup _ | StopSend _ _ | StopClose _ _ | StopDelete _ _
  | StopUnlock _ | StopMissUnlock _ => True
  | _ => False
  end.

Global Instance holds_lock_dec pc : Decision (holds_lock pc).
Proof. destruct pc; apply _. Defined.

(** The handler has made channel [c] for [email] and has not yet run the
    [go] statement of line 54. *)
Definition launching (email : string) (c : chan) (pc : hpc) : Prop :=
  match pc with
  | StartUnlock email' _ c' | StartGo email' _ c' => email' = email ∧ c' = c
  | _ => False
  end.

Global Instance launching_dec email c pc : Decision (launching email c pc).
Proof. destruct pc; apply _. Defined.

(** The handler has sent on [c], the channel of [email], and has not yet
    deleted the entry. *)
Definition signalling (email : string) (c : chan) (pc : hpc) : Prop :=
  pc = StopClose email c ∨ pc = StopDelete email c.

Definition running (w : watcher) : Prop := w_pc w ≠ WReturned.

Global Instance running_dec w : Decision (running w).
Proof. unfold running. apply _. Defined.

(** The channels on which a send was received, oldest first. *)
Definition signals (tr : list event) : list chan :=
  omap (λ e, match e with EvSignal c => Some c | _ => None end) tr.

(** The availability checks that goroutine [wid] began. *)
Definition checks (wid : nat) (tr : list event) : list string :=
  omap (λ e, match e with
             | EvCheck wid' crn => if decide (wid' = wid) then Some crn else None
             | _ => None
             end) tr.

(** The mails sent, as (address, seats, course). *)
Definition mails (tr : list event) : list (string * Z * string) :=
  omap (λ e, match e with
             | EvSendMail _ email n crn _ => Some (email, n, crn)
             | _ => None
             end) tr.

(** The goroutines that poll for [email] and have not returned. *)
Definition watchers_of (email : string) (s : state) : list watcher :=
  filter (λ w, w_email w = email ∧ running w) (goroutines s).

Record inv (s : state) : Prop := Inv {
  (* the mutex *)
  inv_lock : ∀ tid pc,
    handlers s !! tid = Some pc → holds_lock pc →
    subscriptionsMux s = Some tid;
  inv_held : ∀ tid,
    subscriptionsMux s = Some tid →
    ∃ pc, handlers s !! tid = Some pc ∧ holds_lock pc;
  (* every channel in use was made *)
  inv_made_sub : ∀ email c,
    subscriptions s !! email = Some c → (c < chans s)%nat;
  inv_made_go : ∀ wid w,
    goroutines s !! wid = Some w → (w_stopChan w < chans s)%nat;
  inv_made_launch : ∀ tid pc email c,
    handlers s !! tid = Some pc → launching email c pc → (c < chans s)%nat;
  inv_made_signal : ∀ c, c ∈ signals (trace s) → (c < chans s)%nat;
  inv_made_closed : ∀ c, c ∈ closed s → (c < chans s)%nat;
  (* one channel, one entry, one goroutine *)
  inv_sub_inj : ∀ email email' c,
    subscriptions s !! email = Some c →
    subscriptions s !! email' = Some c → email = email';
  inv_go_inj : ∀ i j wi wj,
    goroutines s !! i = Some wi → goroutines s !! j = Some wj →
    w_stopChan wi = w_stopChan wj → i = j;
  inv_launch_inj : ∀ tid tid' pc pc' email email' c,
    handlers s !! tid = Some pc → handlers s !! tid' = Some pc' →
    launching email c pc → launching email' c pc' → tid = tid';
  (* a goroutine that has not returned is the one of its entry *)
  inv_running : ∀ wid w,
    goroutines s !! wid = Some w → running w →
    subscriptions s !! w_email w = Some (w_stopChan w);
  inv_launch : ∀ tid pc email c,
    handlers s !! tid = Some pc → launching email c pc →
    subscriptions s !! email = Some c
    ∧ (∀ wid w, goroutines s !! wid = Some w → w_stopChan w ≠ c)
    ∧ ¬ (c ∈ signals (trace s)) ∧ ¬ (c ∈ closed s);
  (* the critical sections of the handlers *)
  inv_insert : ∀ tid email crn,
    handlers s !! tid = Some (StartInsert email crn) →
    subscriptions s !! email = None;
  inv_send : ∀ tid email c,
    handlers s !! tid = Some (StopSend email c) →
    subscriptions s !! email = Some c;
  inv_signalling : ∀ tid pc email c,
    handlers s !! tid = Some pc → signalling email c pc →
    subscriptions s !! email = Some c ∧ c ∈ signals (trace s);
  (* after the signal *)
  inv_signalled : ∀ c wid w,
    c ∈ signals (trace s) → goroutines s !! wid = Some w →
    w_stopChan w = c → w_pc w = WReturned;
  inv_signalled_sub : ∀ c email,
    c ∈ signals (trace s) → subscriptions s !! email = Some c →
    ∃ tid pc, handlers s !! tid = Some pc ∧ signalling email c pc;
  inv_closed : ∀ c,
    c ∈ closed s →
    c ∈ signals (trace s)
    ∧ ∀ email, subscriptions s !! email = Some c →
        ∃ tid, handlers s !! tid = Some (StopDelete email c);
  inv_once : NoDup (signals (trace s))
}.

(** ** The claims, as stated *)

(** Whoever holds the mutex can run its next statement at once. *)
Definition lock_never_waits (s : state) : Prop :=
  ∀ tid, subscriptionsMux s = Some tid → is_Some (handler_step tid s).

(** The entry of a channel is gone from the registry once a send on the
    channel was received. *)
Definition removed_before_signal (s : state) : Prop :=
  ∀ c email, c ∈ signals (trace s) → subscriptions s !! email ≠ Some c.

(** A registered address has exactly one goroutine polling for it. *)
Definition one_watcher_when_registered (s : state) : Prop :=
  ∀ email, is_Some (subscriptions s !! email) →
    length (watchers_of email s) = 1%nat.

(** After the request of a failing check was answered, the address is
    free again. *)
Definition freed_by_failure (s : state) (email crn : string) : Prop :=
  answer (Stop email) s = Some NotFound
  ∧ answer (Start email crn) s = Some Started.

(** ** What further facts speak of *)

(** The address a request is about. *)
Definition request_email (r : request) : string :=
  match r with
  | Start email _ => email
  | Stop email => email
  end.

(** The exchange of a tick ends in one of the four error branches of
    lines 92-116. *)
Definition poll_fails (o : http_outcome) : Prop :=
  match o with
  | HttpBody body => is_Some (parseAvailableSeats body).2
  | _ => True
  end.

(** ** Some runs of the program *)

(** The state after the steps [ls], from the start of the program. *)
Definition after (ls : list label) : state :=
  default init (exec ls init).

Definition alice : string := "alice@northeastern.edu".
Definition bob : string := "bob@northeastern.edu".

(** A request for [alice] is served to its end by handler 0. *)
Definition alice_started : list label :=
  Arrive (Start alice "12345") :: replicate 6 (Handler 0).

(** Handler 0 has released the mutex and has not yet run line 54. *)
Definition alice_launching : list label :=
  Arrive (Start alice "12345") :: replicate 5 (Handler 0).

(** The first request of [alice]'s goroutine fails (line 100). *)
Definition alice_failed : list label :=
  alice_started ++ [Tick 0; Reply 0 HttpDoErr None].

(** [alice]'s goroutine has taken a tick and waits for the site. *)
Definition alice_polling : list label :=
  alice_started ++ [Tick 0].

(** Handler 1 stops [alice] and has just run line 67. *)
Definition alice_signalled : list label :=
  alice_started ++ Arrive (Stop alice) :: replicate 4 (Handler 1).

(** [alice]'s goroutine is waiting for the site when handler 1, which
    stops her, reaches line 67; a request of [bob] arrives. *)
Definition alice_in_flight : list label :=
  alice_started
    ++ Tick 0 :: Arrive (Stop alice) :: replicate 3 (Handler 1)
    ++ [Arrive (Start bob "67890"); Handler 2].

End Server.

(** * Facts about the parser *)

Import Seats.

Section Strings.

Lemma string_app_nil (b : string) : "" +:+ b = b.
Proof. reflexivity. Qed.

Lemma string_app_cons (x : ascii) (a b : string) :
  String x a +:+ b = String x (a +:+ b).
Proof. reflexivity. Qed.

Lemma string_app_assoc (a b c : string) : (a +:+ b) +:+ c = a +:+ b +:+ c.
Proof.
  induction a as [|x a IH]; [done |]. by rewrite !string_app_cons, IH.
Qed.

Lemma length_zero (a : string) : String.length a = 0%nat → a = "".
Proof. by destruct a. Qed.

Lemma strip_prefix_app (p s : string) : strip_prefix p (p +:+ s) = Some s.
Proof.
  induction p as [|x p IH]; [done |].
  rewrite string_app_cons. simpl. by rewrite Ascii.eqb_refl.
Qed.

Lemma strip_prefix_Some (p s r : string) :
  strip_prefix p s = Some r → s = p +:+ r.
Proof.
  revert s. induction p as [|x p IH]; intros s; simpl.
  - by intros [= ->].
  - destruct s as [|y s]; [done |].
    destruct (Ascii.eqb x y) eqn:E; [|done].
    apply Ascii.eqb_eq in E as ->. intros H.
    by rewrite (IH _ H), string_app_cons.
Qed.

Lemma span_digits_app (s : string) :
  s = (span_digits s).1 +:+ (span_digits s).2.
Proof.
  induction s as [|c s IH]; simpl; [done |].
  destruct (is_digit c); simpl; [by rewrite string_app_cons, <- IH | done].
Qed.

Lemma span_digits_all (s : string) : all_digits (span_digits s).1 = true.
Proof.
  induction s as [|c s IH]; simpl; [done |].
  destruct (is_digit c) eqn:E; simpl; [by rewrite E | done].
Qed.

(** A run of digits followed by something that is no digit is the run
    [span_digits] finds. *)
Lemma span_digits_stop (ds : string) (c : ascii) (r : string) :
  all_digits ds = true → is_digit c = false →
  span_digits (ds +:+ String c r) = (ds, String c r).
Proof.
  intros Hds Hc. induction ds as [|d ds IH].
  - rewrite string_app_nil. simpl. by rewrite Hc.
  - simpl in Hds. apply andb_true_iff in Hds as [Hd Hds].
    rewrite string_app_cons. simpl. by rewrite Hd, (IH Hds).
Qed.

Lemma opt_minus_digit (d : ascii) (s : string) :
  is_digit d = true → opt_minus (String d s) = ("", String d s).
Proof.
  intros Hd. unfold opt_minus.
  destruct d as [[] [] [] [] [] [] [] []]; try done.
Qed.

End Strings.

Section Matching.

Lemma is_number_nonempty cap : is_number cap → cap ≠ "".
Proof. intros (ds & Hne & _ & [-> | ->]); [done | discriminate]. Qed.

(** [match_here] finds a match at the head exactly when there is one,
    and then its group. *)
Lemma match_here_sound (s cap : string) :
  match_here s = Some cap →
  is_number cap ∧ ∃ post, s = seatsMatch cap +:+ post.
Proof.
  unfold match_here.
  destruct (strip_prefix seatsPrefix s) as [s1|] eqn:E1; [|done].
  apply strip_prefix_Some in E1.
  destruct (opt_minus s1) as [sign s2] eqn:E2.
  destruct (span_digits s2) as [ds s3] eqn:E3.
  destruct ds as [|d ds]; [done |].
  destruct (strip_prefix seatsSuffix s3) as [post|] eqn:E4; [|done].
  apply strip_prefix_Some in E4. intros [= <-].
  pose proof (span_digits_app s2) as Happ.
  pose proof (span_digits_all s2) as Hall.
  rewrite E3 in Happ, Hall; simpl in Happ, Hall.
  assert (s1 = sign +:+ s2 ∧ (sign = "" ∨ sign = "-")) as [Hs1 Hsign].
  { unfold opt_minus in E2.
    destruct s1 as [|c s1]; [by inversion E2; auto |].
    destruct (decide (c = "-"%char)) as [-> | Hc].
    - inversion E2; auto.
    - assert ((sign, s2) = ("", String c s1)) as [= -> ->]; [|auto].
      rewrite <- E2.
      destruct c as [[] [] [] [] [] [] [] []]; try done. }
  split.
  - exists (String d ds). split; [done |]. split; [done |].
    destruct Hsign as [-> | ->]; auto.
  - exists post. subst s s1 s3. unfold seatsMatch.
    rewrite Happ, !string_app_assoc. done.
Qed.

Lemma match_here_complete (cap post : string) :
  is_number cap → match_here (seatsMatch cap +:+ post) = Some cap.
Proof.
  intros (ds & Hne & Hds & Hcap).
  unfold match_here, seatsMatch. rewrite !string_app_assoc, strip_prefix_app.
  destruct ds as [|d ds]; [done |].
  assert (Hd : is_digit d = true) by (simpl in Hds; by apply andb_true_iff in Hds as []).
  assert (Hspan : span_digits (String d ds +:+ seatsSuffix +:+ post)
                  = (String d ds, seatsSuffix +:+ post)).
  { unfold seatsSuffix. simpl String.append at 2.
    by apply (span_digits_stop (String d ds) " "). }
  destruct Hcap as [-> | ->].
  - change (String d ds +:+ seatsSuffix +:+ post)
      with (String d (ds +:+ seatsSuffix +:+ post)) at 1.
    rewrite (opt_minus_digit d _ Hd).
    change (String d (ds +:+ seatsSuffix +:+ post))
      with (String d ds +:+ seatsSuffix +:+ post).
    rewrite Hspan, strip_prefix_app. done.
  - change (opt_minus (String "-" (String d ds) +:+ seatsSuffix +:+ post))
      with ("-", String d ds +:+ seatsSuffix +:+ post).
    cbv beta iota zeta.
    rewrite Hspan, strip_prefix_app. done.
Qed.

Lemma match_here_iff (s cap : string) :
  match_here s = Some cap ↔ match_at s "" cap (
    match strip_prefix (seatsMatch cap) s with Some r => r | None => "" end).
Proof.
  split.
  - intros H. destruct (match_here_sound _ _ H) as [Hn [post ->]].
    rewrite strip_prefix_app. by split.
  - intros [Hn ->]. rewrite string_app_nil. by apply match_here_complete.
Qed.

Lemma match_at_head (s cap post : string) :
  match_at s "" cap post → match_here s = Some cap.
Proof. intros [Hn ->]. rewrite string_app_nil. by apply match_here_complete. Qed.

Lemma match_at_cons (c : ascii) (s pre cap post : string) :
  match_at (String c s) (String c pre) cap post ↔ match_at s pre cap post.
Proof.
  unfold match_at. rewrite string_app_cons.
  split; intros [Hn H]; split; try done.
  - by inversion H.
  - by rewrite H.
Qed.

Lemma match_at_empty (pre cap post : string) : ¬ match_at "" pre cap post.
Proof.
  intros [Hn H]. destruct pre; [|done].
  unfold seatsMatch, seatsPrefix in H. by rewrite string_app_nil, !string_app_cons in H.
Qed.

(** A match in [String c s] begins at the head or lies in [s]. *)
Lemma match_at_inv (c : ascii) (s pre cap post : string) :
  match_at (String c s) pre cap post →
  pre = "" ∨ ∃ pre', pre = String c pre' ∧ match_at s pre' cap post.
Proof.
  intros H. destruct pre as [|x pre]; [by left | right].
  assert (x = c) as ->.
  { destruct H as [_ H]. rewrite string_app_cons in H. by inversion H. }
  exists pre. split; [done |]. by apply (match_at_cons c).
Qed.

Lemma Find_none (s : string) :
  FindStringSubmatch s = [] ↔ ¬ contains_pattern s.
Proof.
  induction s as [|c s IH]; simpl.
  - change (match_here "") with (@None string). split; [|done].
    intros _ (pre & cap & post & H). by eapply match_at_empty.
  - destruct (match_here (String c s)) as [cap|] eqn:E.
    + split; [done |]. intros Hno. exfalso. apply Hno.
      apply match_here_iff in E. by eexists _, _, _.
    + rewrite IH. split; intros Hno (pre & cap & post & H); apply Hno.
      * destruct (match_at_inv _ _ _ _ _ H) as [-> | (pre' & -> & H')].
        -- apply match_at_head in H. congruence.
        -- by exists pre', cap, post.
      * exists (String c pre), cap, post. by apply match_at_cons.
Qed.

Lemma Find_some (s cap : string) :
  FindStringSubmatch s = [seatsMatch cap; cap] ↔ leftmost_capture s cap.
Proof.
  revert cap. induction s as [|c s IH]; intros cap; simpl.
  - change (match_here "") with (@None string). split; [done |].
    intros (pre & post & H & _). by apply match_at_empty in H.
  - destruct (match_here (String c s)) as [cap0|] eqn:E.
    + split.
      * intros [= _ ->]. apply match_here_iff in E.
        eexists "", _. split; [exact E |]. intros; simpl; lia.
      * intros (pre & post & H & Hmin).
        pose proof E as E'. apply match_here_iff in E'.
        apply Hmin in E'. simpl in E'.
        assert (pre = "") as -> by (apply length_zero; lia).
        apply match_at_head in H. congruence.
    + rewrite IH. split.
      * intros (pre & post & H & Hmin).
        exists (String c pre), post. split; [by apply match_at_cons |].
        intros pre' cap' post' H'.
        destruct (match_at_inv _ _ _ _ _ H') as [-> | (pre0 & -> & H0)].
        -- apply match_at_head in H'. congruence.
        -- simpl. apply Hmin in H0. lia.
      * intros (pre & post & H & Hmin).
        destruct (match_at_inv _ _ _ _ _ H) as [-> | (pre0 & -> & H0)].
        -- apply match_at_head in H. congruence.
        -- exists pre0, post. split; [done |].
           intros pre' cap' post' H'.
           apply (proj2 (match_at_cons c _ _ _ _)) in H'.
           apply Hmin in H'. simpl in H'. lia.
Qed.

Lemma Find_shape (s : string) :
  FindStringSubmatch s = []
  ∨ ∃ cap, FindStringSubmatch s = [seatsMatch cap; cap].
Proof.
  induction s as [|c s IH]; simpl.
  - change (match_here "") with (@None string). by left.
  - destruct (match_here (String c s)) as [cap|]; [right; by exists cap | done].
Qed.

End Matching.

Section Parsing.

Lemma Atoi_number (cap : string) :
  is_number cap →
  Atoi cap =
    let n := int_of_decimal cap in
    if n <? minInt then (minInt, Some (ErrRange cap))
    else if maxInt <? n then (maxInt, Some (ErrRange cap))
    else (n, None).
Proof.
  intros (ds & Hne & Hds & Hcap).
  destruct ds as [|d ds]; [done |].
  destruct Hcap as [-> | ->].
  - assert (Hd : is_digit d = true)
      by (simpl in Hds; by apply andb_true_iff in Hds as []).
    unfold Atoi.
    assert (match String d ds with
            | String "-" r | String "+" r => r
            | _ => String d ds
            end = String d ds) as ->.
    { destruct d as [[] [] [] [] [] [] [] []]; try done. }
    by rewrite Hds.
  - unfold Atoi. by rewrite Hds.
Qed.

Lemma Atoi_number_error (cap : string) :
  is_number cap →
  is_Some (Atoi cap).2 ↔ ¬ in_int_range (int_of_decimal cap).
Proof.
  intros Hn. rewrite (Atoi_number _ Hn). unfold in_int_range. cbv zeta.
  destruct (Z.ltb_spec (int_of_decimal cap) minInt);
    [|destruct (Z.ltb_spec maxInt (int_of_decimal cap))]; simpl.
  - split; [lia | by eexists].
  - split; [lia | by eexists].
  - split; [by intros [? [=]] | lia].
Qed.

Lemma Atoi_number_value (cap : string) :
  is_number cap → in_int_range (int_of_decimal cap) →
  Atoi cap = (int_of_decimal cap, None).
Proof.
  intros Hn [Hlo Hhi]. rewrite (Atoi_number _ Hn). cbv zeta.
  destruct (Z.ltb_spec (int_of_decimal cap) minInt); [lia |].
  destruct (Z.ltb_spec maxInt (int_of_decimal cap)); [lia | done].
Qed.

Lemma leftmost_capture_number (html cap : string) :
  leftmost_capture html cap → is_number cap.
Proof. by intros (pre & post & [Hn _] & _). Qed.

Lemma leftmost_capture_unique (html cap cap' : string) :
  leftmost_capture html cap → leftmost_capture html cap' → cap = cap'.
Proof.
  intros H H'. apply Find_some in H, H'. congruence.
Qed.

Lemma parse_no_match (html : string) :
  ¬ contains_pattern html →
  parseAvailableSeats html = (0, Some ErrNoSeats).
Proof.
  intros H. apply Find_none in H. unfold parseAvailableSeats. by rewrite H.
Qed.

Lemma parse_match (html cap : string) :
  leftmost_capture html cap → parseAvailableSeats html = Atoi cap.
Proof.
  intros H. apply Find_some in H. unfold parseAvailableSeats. by rewrite H.
Qed.

Lemma contains_leftmost (html : string) :
  contains_pattern html ↔ ∃ cap, leftmost_capture html cap.
Proof.
  split.
  - intros H. destruct (Find_shape html) as [E | [cap E]].
    + by apply Find_none in E.
    + exists cap. by apply Find_some.
  - intros (cap & pre & post & H & _). by exists pre, cap, post.
Qed.

End Parsing.

(** * Facts about the server *)

Import Server.

Section Lookups.

Lemma lookup_goto (hs : list hpc) (tid j : nat) (pc x : hpc) :
  <[tid := pc]> hs !! j = Some x →
  (j = tid ∧ x = pc) ∨ (j ≠ tid ∧ hs !! j = Some x).
Proof.
  rewrite list_lookup_insert_Some. naive_solver.
Qed.

Lemma lookup_goto_eq (hs : list hpc) (tid : nat) (pc0 pc : hpc) :
  hs !! tid = Some pc0 → <[tid := pc]> hs !! tid = Some pc.
Proof.
  intros H. apply list_lookup_insert_eq. by eapply lookup_lt_Some.
Qed.

Lemma lookup_goto_ne (hs : list hpc) (tid j : nat) (pc x : hpc) :
  j ≠ tid → hs !! j = Some x → <[tid := pc]> hs !! j = Some x.
Proof. intros Hne H. by rewrite list_lookup_insert_ne. Qed.

Lemma lookup_snoc {A} (l : list A) (x y : A) (j : nat) :
  (l ++ [x]) !! j = Some y →
  l !! j = Some y ∨ (j = length l ∧ y = x).
Proof. rewrite lookup_snoc_Some. naive_solver. Qed.

Lemma lookup_snoc_old {A} (l : list A) (x y : A) (j : nat) :
  l !! j = Some y → (l ++ [x]) !! j = Some y.
Proof. intros H. rewrite lookup_app_l; [done | by eapply lookup_lt_Some]. Qed.

Lemma lookup_set_wpc (ws : list watcher) (wid j : nat) (pc : wpc)
    (w' : watcher) :
  alter (at_pc pc) wid ws !! j = Some w' →
  ∃ w, ws !! j = Some w
       ∧ ((j = wid ∧ w' = at_pc pc w) ∨ (j ≠ wid ∧ w' = w)).
Proof.
  destruct (decide (wid = j)) as [-> | Hne].
  - rewrite list_lookup_alter_eq. destruct (ws !! j) as [w|]; [|done].
    intros [= <-]. exists w. naive_solver.
  - rewrite list_lookup_alter_ne by done. intros H. exists w'. naive_solver.
Qed.

Lemma handlers_goto_keep (hs : list hpc) (tid : nat) (pc0 pc1 : hpc)
    (P : hpc → Prop) :
  hs !! tid = Some pc0 → (P pc0 → P pc1) →
  (∃ t pc, hs !! t = Some pc ∧ P pc) →
  ∃ t pc, <[tid := pc1]> hs !! t = Some pc ∧ P pc.
Proof.
  intros Hpc HP (t & pc & Ht & Hp).
  destruct (decide (t = tid)) as [-> | Hne].
  - exists tid, pc1. split; [by eapply lookup_goto_eq |].
    apply HP. congruence.
  - exists t, pc. split; [by apply lookup_goto_ne | done].
Qed.

Lemma handlers_snoc_keep (hs : list hpc) (x : hpc) (P : hpc → Prop) :
  (∃ t pc, hs !! t = Some pc ∧ P pc) →
  ∃ t pc, (hs ++ [x]) !! t = Some pc ∧ P pc.
Proof.
  intros (t & pc & Ht & Hp). exists t, pc.
  split; [by apply lookup_snoc_old | done].
Qed.

Lemma signals_app (tr evs : list event) :
  signals (tr ++ evs) = signals tr ++ signals evs.
Proof. apply omap_app. Qed.

Lemma checks_app (wid : nat) (tr evs : list event) :
  checks wid (tr ++ evs) = checks wid tr ++ checks wid evs.
Proof. apply omap_app. Qed.

Lemma mails_app (tr evs : list event) :
  mails (tr ++ evs) = mails tr ++ mails evs.
Proof. apply omap_app. Qed.

Lemma signals_pollOnce wid email crn o smtp :
  signals (pollOnce wid email crn o smtp).1 = [].
Proof.
  unfold pollOnce. destruct o; try done.
  destruct (parseAvailableSeats body) as [n [e|]]; [done |].
  destruct (0 <? n)%Z; [|done]. by destruct smtp.
Qed.

Lemma signals_poll wid email crn o smtp evs pc :
  pollOnce wid email crn o smtp = (evs, pc) → signals evs = [].
Proof.
  intros H. pose proof (signals_pollOnce wid email crn o smtp) as E.
  by rewrite H in E.
Qed.

Lemma receiver_Some (c : chan) (ws : list watcher) (wid : nat) :
  receiver c ws = Some wid →
  ∃ w, ws !! wid = Some w ∧ w_stopChan w = c ∧ w_pc w = WSelect.
Proof.
  revert wid. induction ws as [|w ws IH]; intros wid; simpl; [done |].
  case_decide as Hw.
  - intros [= <-]. exists w. naive_solver.
  - destruct (receiver c ws) as [i|]; [|done]. intros [= <-].
    destruct (IH i eq_refl) as (w' & ? & ? & ?). by exists w'.
Qed.

Lemma receiver_None (c : chan) (ws : list watcher) :
  receiver c ws = None ↔
  ∀ wid w, ws !! wid = Some w → ¬ (w_stopChan w = c ∧ w_pc w = WSelect).
Proof.
  induction ws as [|w ws IH]; simpl.
  - split; [by intros _ ? ? ? | done].
  - case_decide as Hw.
    + split; [done |]. intros H. by destruct (H 0%nat w eq_refl).
    + destruct (receiver c ws) as [i|] eqn:E.
      * split; [done |]. intros H. exfalso.
        assert (@None nat = None) as _ by done.
        apply receiver_Some in E as (w' & Hw' & ? & ?).
        by eapply (H (S i) w').
      * split; [|done]. intros _ [|wid] w'; simpl.
        -- by intros [= <-].
        -- intros Hl. by eapply IH.
Qed.

End Lookups.

(** Unfolds one step into the statement that ran. *)
Ltac step_cases H :=
  match type of H with
  | step ?l ?s = Some _ =>
      destruct l; simpl in H; unfold handler_step, lock in H;
      repeat (first
        [ discriminate H
        | match type of H with
          | context [handlers s !! ?t] =>
              let pc := fresh "pc" in
              let E := fresh "Hpc" in
              destruct (handlers s !! t) as [pc|] eqn:E;
              [destruct pc|]
          | context [goroutines s !! ?i] =>
              let E := fresh "Hgo" in
              destruct (goroutines s !! i) as [[? ? ? []]|] eqn:E
          | context [pollOnce ?a ?b ?c ?d ?e] =>
              let E := fresh "Hpoll" in
              destruct (pollOnce a b c d e) as [? ?] eqn:E
          | context [decide ?P] => destruct (decide P)
          | context [subscriptionsMux s] =>
              let E := fresh "Hmux" in
              destruct (subscriptionsMux s) eqn:E
          | context [subscriptions s !! ?k] =>
              let E := fresh "Hsub" in
              destruct (subscriptions s !! k) eqn:E
          | context [receiver ?c ?ws] =>
              let E := fresh "Hrecv" in
              destruct (receiver c ws) eqn:E
          end ]);
      injection H as <-
  end.

(** Turns what is known of the state after a step into what was so
    before it. *)
Ltac rewind :=
  repeat match goal with
  | H : _ ∧ _ |- _ => destruct H
  | H : False |- _ => destruct H
  | H : <[_:=_]> _ !! _ = Some _ |- _ =>
      first [ apply lookup_goto in H as [[? ?] | [? H]]; simplify_eq
            | apply lookup_insert_Some in H as [[? ?] | [? H]];
              simplify_eq ]
  | H : (_ ++ [_]) !! _ = Some _ |- _ =>
      apply lookup_snoc in H as [H | [? ?]]; simplify_eq
  | H : alter (at_pc _) _ _ !! _ = Some _ |- _ =>
      let w := fresh "w" in
      apply lookup_set_wpc in H as (w & H & [[-> ->] | [? ->]])
  | H : delete _ _ !! _ = Some _ |- _ =>
      apply lookup_delete_Some in H as [? H]
  | H : _ ∈ signals (_ ++ _) |- _ =>
      rewrite signals_app in H; apply elem_of_app in H as [H | H]
  | Hp : pollOnce _ _ _ _ _ = (?evs, _), H : _ ∈ signals ?evs |- _ =>
      rewrite (signals_poll _ _ _ _ _ _ _ Hp) in H
  | H : _ ∈ signals (_ :: _) |- _ => simpl in H
  | H : _ ∈ signals [] |- _ => simpl in H
  | H : _ ∈ _ :: _ |- _ => apply elem_of_cons in H as [-> | H]
  | H : _ ∈ [] |- _ => apply elem_of_nil in H
  | H : _ = entry ?r |- _ => destruct r; discriminate H
  | H : launching _ _ (entry ?r) |- _ => destruct r; simpl in H
  | H : holds_lock (entry ?r) |- _ => destruct r; simpl in H
  | H : signalling _ _ (entry ?r) |- _ => destruct r; simpl in H
  | H : launching _ _ ?pc |- _ => progress simpl in H
  | H : holds_lock ?pc |- _ => progress simpl in H
  | H : signalling _ _ _ |- _ => destruct H as [H | H]; try discriminate H
  | H : Some _ = Some _ |- _ => injection H as H; try subst
  | H : receiver _ _ = Some _ |- _ =>
      apply receiver_Some in H as (? & ? & ? & ?)
  end.

Ltac learn pf :=
  let T := type of pf in
  lazymatch goal with
  | _ : T |- _ => fail
  | _ => pose proof pf
  end.

Ltac learn_all pf :=
  let T := type of pf in
  lazymatch eval hnf in T with
  | _ ∧ _ => first [ learn_all (proj1 pf) | learn_all (proj2 pf) ]
  | _ => learn pf
  end.

(** Adds what the invariant says of the handlers, goroutines, entries
    and signals at hand. *)
Ltac sat :=
  repeat match goal with
  | Hinv : inv ?s, H : handlers ?s !! ?t = Some ?pc |- _ =>
      first
        [ learn (inv_lock s Hinv t pc H I)
        | match goal with
          | Hh : holds_lock pc |- _ => learn (inv_lock s Hinv t pc H Hh)
          end
        | learn (inv_send s Hinv t _ _ H)
        | learn (inv_insert s Hinv t _ _ H)
        | learn_all (inv_signalling s Hinv t pc _ _ H (or_introl eq_refl))
        | learn_all (inv_signalling s Hinv t pc _ _ H (or_intror eq_refl))
        | learn_all (inv_launch s Hinv t pc _ _ H (conj eq_refl eq_refl))
        | learn (inv_made_launch s Hinv t pc _ _ H (conj eq_refl eq_refl))
        | match goal with
          | Hl : launching ?e ?c pc |- _ =>
              first [ learn_all (inv_launch s Hinv t pc e c H Hl)
                    | learn (inv_made_launch s Hinv t pc e c H Hl) ]
          end
        | match goal with
          | Hl : launching ?e ?c pc,
            H' : handlers s !! ?t' = Some ?pc' |- _ =>
              learn (inv_launch_inj s Hinv t t' pc pc' e _ c H H' Hl
                       (conj eq_refl eq_refl))
          end ]
  | Hinv : inv ?s, H : subscriptions ?s !! ?k = Some ?c |- _ =>
      first
        [ learn (inv_made_sub s Hinv k c H)
        | match goal with
          | H' : subscriptions s !! ?k' = Some c |- _ =>
              lazymatch k with k' => fail | _ => idtac end;
              learn (inv_sub_inj s Hinv k k' c H H')
          end ]
  | Hinv : inv ?s, H : goroutines ?s !! ?i = Some ?w |- _ =>
      first
        [ learn (inv_made_go s Hinv i w H)
        | learn (inv_running s Hinv i w H
                   ltac:(first [ assumption
                               | unfold running; simpl; congruence ]))
        | match goal with
          | H' : goroutines s !! ?j = Some ?w' |- _ =>
              lazymatch i with j => fail | _ => idtac end;
              learn (inv_go_inj s Hinv i j w w' H H')
          end ]
  | Hinv : inv ?s, H : ?c ∈ signals (trace ?s) |- _ =>
      first
        [ learn (inv_made_signal s Hinv c H)
        | match goal with
          | Hg : goroutines s !! ?i = Some ?w |- _ =>
              learn (inv_signalled s Hinv c i w H Hg)
          end ]
  | Hinv : inv ?s, H : ?c ∈ closed ?s |- _ =>
      first [ learn (inv_made_closed s Hinv c H)
            | learn_all (inv_closed s Hinv c H) ]
  end.

Ltac close := first [ done | lia | congruence | naive_solver ].

(** Lookups in the registry after an insertion or a deletion. *)
Ltac fwd :=
  repeat match goal with
  | |- <[?k:=_]> _ !! ?k = Some _ => by rewrite lookup_insert_eq
  | |- <[?k:=_]> _ !! ?k' = Some _ =>
      apply lookup_insert_Some;
      destruct (decide (k = k')); [left | right]; split;
      try done
  | |- delete ?k _ !! ?k' = Some _ =>
      apply lookup_delete_Some; split; [intro |]
  | |- _ ∈ signals (_ ++ _) =>
      rewrite signals_app; apply elem_of_app; simpl;
      first [ by left | by right; constructor | idtac ]
  | Hp : pollOnce _ _ _ _ _ = (?evs, _) |- context [signals ?evs] =>
      rewrite (signals_poll _ _ _ _ _ _ _ Hp)
  end.

Ltac crush :=
  repeat first [ split | intro ]; rewind; simplify_eq/=; try done;
  sat; fwd; try close.

Section Invariant.

Context (l : label) (s s' : state).
Hypothesis Hinv : inv s.
Hypothesis Hstep : step l s = Some s'.

Lemma step_lock tid pc :
  handlers s' !! tid = Some pc → holds_lock pc →
  subscriptionsMux s' = Some tid.
Proof using Hinv Hstep.
  pose proof Hstep as H. clear Hstep.
  step_cases H; simpl; crush.
Qed.

Lemma step_held tid :
  subscriptionsMux s' = Some tid →
  ∃ pc, handlers s' !! tid = Some pc ∧ holds_lock pc.
Proof using Hinv Hstep.
  pose proof Hstep as H. clear Hstep.
  step_cases H; simpl; intros Hm; try discriminate Hm;
    try (injection Hm as <-; eexists; split;
         [by eapply lookup_goto_eq | exact I]);
    destruct (inv_held _ Hinv _ Hm) as (pc' & Hl & Hh).
  1: { exists pc'. split; [by apply lookup_snoc_old | done]. }
  all: match goal with
       | Hpc : handlers s !! ?t = Some _ |- context [<[?t := _]> _ !! ?u] =>
           destruct (decide (u = t)) as [-> | Hne];
           [ rewrite Hpc in Hl; injection Hl as <-;
             first [ by destruct Hh
                   | eexists; split; [by eapply lookup_goto_eq | exact I] ]
           | exists pc'; split; [by apply lookup_goto_ne | done] ]
       | _ => by exists pc'
       end.
Qed.

Lemma step_made_sub email c :
  subscriptions s' !! email = Some c → (c < chans s')%nat.
Proof using Hinv Hstep.
  pose proof Hstep as H. clear Hstep.
  step_cases H; simpl; crush.
Qed.

Lemma step_made_go wid w :
  goroutines s' !! wid = Some w → (w_stopChan w < chans s')%nat.
Proof using Hinv Hstep.
  pose proof Hstep as H. clear Hstep.
  step_cases H; simpl; crush.
Qed.

Lemma step_made_launch tid pc email c :
  handlers s' !! tid = Some pc → launching email c pc → (c < chans s')%nat.
Proof using Hinv Hstep.
  pose proof Hstep as H. clear Hstep.
  step_cases H; simpl; crush.
Qed.

Lemma step_made_signal c : c ∈ signals (trace s') → (c < chans s')%nat.
Proof using Hinv Hstep.
  pose proof Hstep as H. clear Hstep.
  step_cases H; simpl; crush.
Qed.

Lemma step_made_closed c : c ∈ closed s' → (c < chans s')%nat.
Proof using Hinv Hstep.
  pose proof Hstep as H. clear Hstep.
  step_cases H; simpl; crush.
Qed.

Lemma step_sub_inj email email' c :
  subscriptions s' !! email = Some c →
  subscriptions s' !! email' = Some c → email = email'.
Proof using Hinv Hstep.
  pose proof Hstep as H. clear Hstep. pose proof (inv_sub_inj _ Hinv).
  step_cases H; simpl; crush.
Qed.

Lemma step_go_inj i j wi wj :
  goroutines s' !! i = Some wi → goroutines s' !! j = Some wj →
  w_stopChan wi = w_stopChan wj → i = j.
Proof using Hinv Hstep.
  pose proof Hstep as H. clear Hstep. pose proof (inv_go_inj _ Hinv).
  step_cases H; simpl; crush.
Qed.

Lemma step_launch_inj tid tid' pc pc' email email' c :
  handlers s' !! tid = Some pc → handlers s' !! tid' = Some pc' →
  launching email c pc → launching email' c pc' → tid = tid'.
Proof using Hinv Hstep.
  pose proof Hstep as H. clear Hstep. pose proof (inv_launch_inj _ Hinv).
  step_cases H; simpl; crush.
Qed.

Lemma step_running wid w :
  goroutines s' !! wid = Some w → running w →
  subscriptions s' !! w_email w = Some (w_stopChan w).
Proof using Hinv Hstep.
  pose proof Hstep as H. clear Hstep. pose proof (inv_running _ Hinv).
  step_cases H; simpl; crush.
Qed.

Lemma step_launch tid pc email c :
  handlers s' !! tid = Some pc → launching email c pc →
  subscriptions s' !! email = Some c
  ∧ (∀ wid w, goroutines s' !! wid = Some w → w_stopChan w ≠ c)
  ∧ ¬ (c ∈ signals (trace s')) ∧ ¬ (c ∈ closed s').
Proof using Hinv Hstep.
  pose proof Hstep as H. clear Hstep.
  step_cases H; simpl; crush.
Qed.

Lemma step_insert tid email crn :
  handlers s' !! tid = Some (StartInsert email crn) →
  subscriptions s' !! email = None.
Proof using Hinv Hstep.
  pose proof Hstep as H. clear Hstep.
  step_cases H; simpl; crush.
Qed.

Lemma step_send tid email c :
  handlers s' !! tid = Some (StopSend email c) →
  subscriptions s' !! email = Some c.
Proof using Hinv Hstep.
  pose proof Hstep as H. clear Hstep.
  step_cases H; simpl; crush.
Qed.

Lemma step_signalling tid pc email c :
  handlers s' !! tid = Some pc → signalling email c pc →
  subscriptions s' !! email = Some c ∧ c ∈ signals (trace s').
Proof using Hinv Hstep.
  pose proof Hstep as H. clear Hstep.
  step_cases H; simpl; crush.
Qed.

Lemma step_signalled c wid w :
  c ∈ signals (trace s') → goroutines s' !! wid = Some w →
  w_stopChan w = c → w_pc w = WReturned.
Proof using Hinv Hstep.
  pose proof Hstep as H. clear Hstep.
  step_cases H; simpl; crush.
Qed.

Lemma step_signalled_sub c email :
  c ∈ signals (trace s') → subscriptions s' !! email = Some c →
  ∃ tid pc, handlers s' !! tid = Some pc ∧ signalling email c pc.
Proof using Hinv Hstep.
  pose proof Hstep as H. clear Hstep.
  pose proof (inv_signalled_sub _ Hinv) as IS.
  step_cases H; simpl; intros; rewind; simplify_eq/=; try done; sat;
    try (by eapply IS);
    try (by eapply handlers_snoc_keep, IS);
    try (eapply handlers_goto_keep; [done | | by eapply IS];
         intros [? | ?]; simplify_eq; by (left + right)).
  all: try lia.
  subst. exists tid, (StopClose email w_stopChan0).
  split; [by eapply lookup_goto_eq | by left].
Qed.

Lemma step_closed c :
  c ∈ closed s' →
  c ∈ signals (trace s')
  ∧ ∀ email, subscriptions s' !! email = Some c →
      ∃ tid, handlers s' !! tid = Some (StopDelete email c).
Proof using Hinv Hstep.
  pose proof Hstep as H. clear Hstep.
  assert (IC : ∀ c email, c ∈ closed s → subscriptions s !! email = Some c →
            ∃ t pc, handlers s !! t = Some pc ∧ pc = StopDelete email c).
  { intros c0 e Hc He. destruct (inv_closed _ Hinv _ Hc) as [_ Hd].
    destruct (Hd _ He) as [t Ht]. by exists t, (StopDelete e c0). }
  assert (OUT : ∀ (hs : list hpc) e c,
            (∃ t pc, hs !! t = Some pc ∧ pc = StopDelete e c) →
            ∃ t : nat, hs !! t = Some (StopDelete e c)).
  { intros hs e c0 (t & pc & Ht & ->). by exists t. }
  step_cases H; simpl;
    repeat first [ split | intro ]; rewind; simplify_eq/=; try done; sat; fwd;
    try (apply OUT; by eapply IC);
    try (apply OUT; by eapply handlers_snoc_keep, IC);
    try (apply OUT; eapply handlers_goto_keep; [done | | by eapply IC];
         intros ?; simplify_eq; done);
    try assumption; try lia.
  assert (email0 = email) as -> by congruence.
  exists tid. by eapply lookup_goto_eq.
Qed.

Lemma step_once : NoDup (signals (trace s')).
Proof using Hinv Hstep.
  pose proof Hstep as H. clear Hstep. pose proof (inv_once _ Hinv).
  step_cases H; simpl; try done;
    rewrite signals_app; simpl;
    rewrite ?(signals_poll _ _ _ _ _ _ _ Hpoll), ?app_nil_r; try done.
  all: apply receiver_Some in Hrecv as (w & Hw & Hc & Hp).
  all: apply NoDup_app; split; [done |]; split; [| apply NoDup_singleton].
  all: intros x Hx ->%list_elem_of_singleton.
  all: pose proof (inv_signalled _ Hinv _ _ _ Hx Hw Hc); congruence.
Qed.

Lemma step_inv : inv s'.
Proof using Hinv Hstep.
  split.
  - apply step_lock.
  - apply step_held.
  - apply step_made_sub.
  - apply step_made_go.
  - apply step_made_launch.
  - apply step_made_signal.
  - apply step_made_closed.
  - apply step_sub_inj.
  - apply step_go_inj.
  - apply step_launch_inj.
  - apply step_running.
  - apply step_launch.
  - apply step_insert.
  - apply step_send.
  - apply step_signalling.
  - apply step_signalled.
  - apply step_signalled_sub.
  - apply step_closed.
  - apply step_once.
Qed.

End Invariant.

Section Reachable.

Lemma inv_init : inv init.
Proof.
  split; simpl; intros;
    repeat match goal with
    | H : [] !! _ = Some _ |- _ => by rewrite lookup_nil in H
    | H : ∅ !! _ = Some _ |- _ => by rewrite lookup_empty in H
    | H : _ ∈ [] |- _ => by apply elem_of_nil in H
    end; try done.
  constructor.
Qed.

Lemma exec_inv (ls : list label) (s s' : state) :
  inv s → exec ls s = Some s' → inv s'.
Proof.
  revert s. induction ls as [|l ls IH]; intros s Hinv; simpl.
  - by intros [= <-].
  - destruct (step l s) as [s1|] eqn:E; [|done].
    apply IH. by eapply step_inv.
Qed.

Lemma reachable_inv (s : state) : reachable s → inv s.
Proof. intros [ls H]. eapply exec_inv; [apply inv_init | done]. Qed.

Lemma exec_app (ls ls' : list label) (s : state) :
  exec (ls ++ ls') s = exec ls s ≫= exec ls'.
Proof.
  revert s. induction ls as [|l ls IH]; intros s; simpl; [done |].
  destruct (step l s); simpl; [apply IH | done].
Qed.

Lemma reachable_exec (ls : list label) (s s' : state) :
  reachable s → exec ls s = Some s' → reachable s'.
Proof.
  intros [ls0 H0] H. exists (ls0 ++ ls). rewrite exec_app, H0. done.
Qed.

Lemma reachable_step (l : label) (s s' : state) :
  reachable s → step l s = Some s' → reachable s'.
Proof.
  intros Hr H. apply (reachable_exec [l] s); [done |]. simpl. by rewrite H.
Qed.

End Reachable.

(** * Requests served without interruption *)

Section Serve.

Lemma lookup_last {A} (l : list A) (x : A) : (l ++ [x]) !! length l = Some x.
Proof. by rewrite lookup_app_r, Nat.sub_diag. Qed.

Lemma insert_last {A} (l : list A) (x y : A) :
  <[length l := y]> (l ++ [x]) = l ++ [y].
Proof.
  rewrite insert_app_r_alt by lia. by rewrite Nat.sub_diag.
Qed.

Lemma run_handler_done fuel tid s r :
  handlers s !! tid = Some (Done r) → run_handler fuel tid s = Some (r, s).
Proof. intros H. destruct fuel; simpl; by rewrite H. Qed.

Lemma run_handler_step fuel tid s pc s1 :
  handlers s !! tid = Some pc → (∀ r, pc ≠ Done r) →
  handler_step tid s = Some s1 →
  run_handler (S fuel) tid s = run_handler fuel tid s1.
Proof.
  intros H Hpc Hs. simpl. rewrite H, Hs. destruct pc; try done.
  by destruct (Hpc r).
Qed.

Lemma run_handler_stuck fuel tid s pc :
  handlers s !! tid = Some pc → (∀ r, pc ≠ Done r) →
  handler_step tid s = None →
  run_handler fuel tid s = None.
Proof.
  intros H Hpc Hs. destruct fuel; simpl; rewrite H, ?Hs;
    destruct pc; try done; by destruct (Hpc r).
Qed.

Lemma handler_step_serving subs mux n cl hs pc gs tr :
  handler_step (length hs) (serving subs mux n cl hs pc gs tr) =
  let s := serving subs mux n cl hs pc gs tr in
  let tid := length hs in
  match pc with
  | StartEntry email crn =>
      if decide (email = EmptyString ∨ crn = EmptyString)
      then Some (respond tid BadRequest s)
      else Some (goto tid (StartLock email crn) s)
  | StartLock email crn => lock tid (StartCheck email crn) s
  | StartCheck email crn =>
      match subs !! email with
      | Some _ => Some (goto tid (StartDupUnlock email crn) s)
      | None => Some (goto tid (StartInsert email crn) s)
      end
  | StartDupUnlock email crn =>
      Some (respond tid AlreadyActive (set_mux None s))
  | StartInsert email crn =>
      Some (goto tid (StartUnlock email crn n)
              (set_subscriptions (<[email := n]> subs) (make_chan s)))
  | StartUnlock email crn stopChan =>
      Some (goto tid (StartGo email crn stopChan) (set_mux None s))
  | StartGo email crn stopChan =>
      Some (respond tid Started (spawn (Watcher email crn stopChan WSelect) s))
  | StopEntry email =>
      if decide (email = EmptyString)
      then Some (respond tid BadRequest s)
      else Some (goto tid (StopLock email) s)
  | StopLock email => lock tid (StopLookup email) s
  | StopLookup email =>
      match subs !! email with
      | Some stopChan => Some (goto tid (StopSend email stopChan) s)
      | None => Some (goto tid (StopMissUnlock email) s)
      end
  | StopSend email stopChan =>
      if decide (stopChan ∈ cl) then None
      else
        match receiver stopChan gs with
        | None => None
        | Some wid =>
            let who := default EmptyString (w_email <$> gs !! wid) in
            Some (goto tid (StopClose email stopChan)
                    (emit [EvSignal stopChan; EvLog wid (LogStopping who)]
                       (set_wpc wid WReturned s)))
        end
  | StopClose email stopChan =>
      if decide (stopChan ∈ cl) then None
      else Some (goto tid (StopDelete email stopChan) (close_chan stopChan s))
  | StopDelete email stopChan =>
      Some (goto tid (StopUnlock email)
              (set_subscriptions (delete email subs) s))
  | StopUnlock email => Some (respond tid Stopped (set_mux None s))
  | StopMissUnlock email => Some (respond tid NotFound (set_mux None s))
  | Done _ => None
  end.
Proof.
  unfold handler_step, serving; simpl. by rewrite lookup_last.
Qed.

End Serve.

(** Runs the handler that is served by one more statement. *)
Ltac settle :=
  repeat first
    [ rewrite decide_False by (first [ done | tauto ])
    | rewrite decide_True by (first [ done | tauto ])
    | match goal with
      | H : ?x = Some _ |- context [?x] => rewrite H
      | H : ?x = None |- context [?x] => rewrite H
      end ].

Ltac serve_step :=
  lazymatch goal with
  | |- context [run_handler (S ?f) (length ?hs)
                  (serving ?subs ?mux ?n ?cl ?hs ?pc ?gs ?tr)] =>
      erewrite (run_handler_step f (length hs)
                  (serving subs mux n cl hs pc gs tr) pc);
      [ | apply lookup_last | done
        | rewrite handler_step_serving; cbv zeta;
          unfold lock, goto, respond, set_mux, set_subscriptions, make_chan,
            close_chan, spawn, set_wpc, emit, serving; simpl;
          rewrite ?insert_last; settle; rewrite ?insert_last; reflexivity ];
      try change (State ?a ?b ?c ?d (hs ++ [?p]) ?g ?t)
        with (serving a b c d hs p g t)
  end.

Ltac serve_done :=
  rewrite run_handler_done with (r := _) by apply lookup_last;
  unfold serving; rewrite <- ?List.app_assoc; reflexivity.

Ltac serve_start s :=
  destruct s as [subs mux n cl hs gs tr];
  cbn [subscriptions subscriptionsMux chans closed handlers goroutines trace]
    in *;
  unfold serve, arrive, entry;
  cbn [subscriptions subscriptionsMux chans closed handlers goroutines trace];
  subst;
  try change (State ?a ?b ?c ?d (hs ++ [?p]) ?g ?t)
    with (serving a b c d hs p g t).

Section ServeFacts.

Lemma serve_start_new (s : state) (email crn : string) :
  subscriptionsMux s = None → email ≠ "" → crn ≠ "" →
  subscriptions s !! email = None →
  serve (Start email crn) s =
    Some (Started,
          State (<[email := chans s]> (subscriptions s)) None (S (chans s))
                (closed s) (handlers s ++ [Done Started])
                (goroutines s ++ [Watcher email crn (chans s) WSelect])
                (trace s ++ [EvRespond (length (handlers s)) Started])).
Proof.
  intros Hm He Hc Hsub. serve_start s.
  do 6 serve_step. serve_done.
Qed.

Lemma serve_start_dup (s : state) (email crn : string) (c : chan) :
  subscriptionsMux s = None → email ≠ "" → crn ≠ "" →
  subscriptions s !! email = Some c →
  serve (Start email crn) s =
    Some (AlreadyActive,
          State (subscriptions s) None (chans s) (closed s)
                (handlers s ++ [Done AlreadyActive]) (goroutines s)
                (trace s ++ [EvRespond (length (handlers s)) AlreadyActive])).
Proof.
  intros Hm He Hc Hsub. serve_start s.
  do 4 serve_step. serve_done.
Qed.

Lemma serve_stop_miss (s : state) (email : string) :
  subscriptionsMux s = None → email ≠ "" →
  subscriptions s !! email = None →
  serve (Stop email) s =
    Some (NotFound,
          State (subscriptions s) None (chans s) (closed s)
                (handlers s ++ [Done NotFound]) (goroutines s)
                (trace s ++ [EvRespond (length (handlers s)) NotFound])).
Proof.
  intros Hm He Hsub. serve_start s.
  do 4 serve_step. serve_done.
Qed.

Lemma serve_stop_hit (s : state) (email : string) (c : chan) (wid : nat) :
  subscriptionsMux s = None → email ≠ "" →
  subscriptions s !! email = Some c → (c ∉ closed s) →
  receiver c (goroutines s) = Some wid →
  serve (Stop email) s =
    Some (Stopped,
          State (delete email (subscriptions s)) None (chans s)
                (c :: closed s) (handlers s ++ [Done Stopped])
                (alter (at_pc WReturned) wid (goroutines s))
                (trace s ++
                   [EvSignal c;
                    EvLog wid (LogStopping
                      (default EmptyString (w_email <$> goroutines s !! wid)));
                    EvClose c;
                    EvRespond (length (handlers s)) Stopped])).
Proof.
  intros Hm He Hsub Hcl Hrecv. serve_start s.
  do 7 serve_step. serve_done.
Qed.

Lemma serve_stop_blocked (s : state) (email : string) (c : chan) :
  subscriptionsMux s = None → email ≠ "" →
  subscriptions s !! email = Some c →
  receiver c (goroutines s) = None →
  serve (Stop email) s = None.
Proof.
  intros Hm He Hsub Hrecv. serve_start s.
  do 3 serve_step.
  eapply run_handler_stuck; [apply lookup_last | done |].
  rewrite handler_step_serving. cbv zeta. rewrite Hrecv.
  by destruct (decide _).
Qed.

Lemma serve_locked (r : request) (s : state) (tid : nat) :
  subscriptionsMux s = Some tid →
  serve r s = None
  ∨ ∃ s', serve r s = Some (BadRequest, s').
Proof.
  intros Hm. destruct r as [email crn | email]; serve_start s.
  - destruct (decide (email = "" ∨ crn = "")).
    + right. serve_step. eexists. serve_done.
    + left. serve_step.
      eapply run_handler_stuck; [apply lookup_last | done |].
      by rewrite handler_step_serving.
  - destruct (decide (email = "")).
    + right. serve_step. eexists. serve_done.
    + left. serve_step.
      eapply run_handler_stuck; [apply lookup_last | done |].
      by rewrite handler_step_serving.
Qed.

End ServeFacts.

Section ServeCases.

Lemma serve_start_bad (s : state) (email crn : string) :
  email = "" ∨ crn = "" →
  serve (Start email crn) s =
    Some (BadRequest,
          State (subscriptions s) (subscriptionsMux s) (chans s) (closed s)
                (handlers s ++ [Done BadRequest]) (goroutines s)
                (trace s ++ [EvRespond (length (handlers s)) BadRequest])).
Proof.
  intros He. serve_start s. serve_step. serve_done.
Qed.

Lemma serve_stop_bad (s : state) :
  serve (Stop "") s =
    Some (BadRequest,
          State (subscriptions s) (subscriptionsMux s) (chans s) (closed s)
                (handlers s ++ [Done BadRequest]) (goroutines s)
                (trace s ++ [EvRespond (length (handlers s)) BadRequest])).
Proof.
  serve_start s. serve_step. serve_done.
Qed.

Lemma serve_stop_panic (s : state) (email : string) (c : chan) :
  subscriptionsMux s = None → email ≠ "" →
  subscriptions s !! email = Some c → c ∈ closed s →
  serve (Stop email) s = None.
Proof.
  intros Hm He Hsub Hcl. serve_start s.
  do 3 serve_step.
  eapply run_handler_stuck; [apply lookup_last | done |].
  rewrite handler_step_serving. cbv zeta. by rewrite decide_True.
Qed.

(** When [Start] answers [Started]. *)
Lemma serve_start_Started (s s1 : state) (email crn : string) :
  serve (Start email crn) s = Some (Started, s1) →
  subscriptionsMux s = None ∧ email ≠ "" ∧ crn ≠ ""
  ∧ subscriptions s !! email = None.
Proof.
  intros H.
  destruct (decide (email = "" ∨ crn = "")) as [Hbad | Hok].
  { by rewrite serve_start_bad in H. }
  destruct (subscriptionsMux s) as [tid|] eqn:Hm.
  { destruct (serve_locked (Start email crn) s tid Hm) as [E | [s' E]];
      by rewrite E in H. }
  destruct (subscriptions s !! email) as [c|] eqn:Hsub.
  { rewrite (serve_start_dup s email crn c) in H by tauto. done. }
  tauto.
Qed.

(** When [Stop] answers [Stopped]. *)
Lemma serve_stop_Stopped (s s1 : state) (email : string) :
  serve (Stop email) s = Some (Stopped, s1) →
  subscriptionsMux s = None ∧ email ≠ ""
  ∧ ∃ c wid, subscriptions s !! email = Some c ∧ (c ∉ closed s)
             ∧ receiver c (goroutines s) = Some wid.
Proof.
  intros H.
  destruct (decide (email = "")) as [-> | Hok].
  { by rewrite serve_stop_bad in H. }
  destruct (subscriptionsMux s) as [tid|] eqn:Hm.
  { destruct (serve_locked (Stop email) s tid Hm) as [E | [s' E]];
      by rewrite E in H. }
  destruct (subscriptions s !! email) as [c|] eqn:Hsub.
  2: { by rewrite serve_stop_miss in H. }
  destruct (decide (c ∈ closed s)) as [Hcl | Hcl].
  { by rewrite (serve_stop_panic s email c) in H. }
  destruct (receiver c (goroutines s)) as [wid|] eqn:Hrecv.
  2: { by rewrite (serve_stop_blocked s email c) in H. }
  repeat split; try done. by exists c, wid.
Qed.

End ServeCases.

(** * The goroutines of an address *)

Section Watchers.

Lemma receiver_snoc (c : chan) (gs : list watcher) (w : watcher) :
  w_stopChan w = c → w_pc w = WSelect →
  is_Some (receiver c (gs ++ [w])).
Proof.
  intros Hc Hp. induction gs as [|g gs IH]; simpl.
  - rewrite decide_True by done. by eexists.
  - case_decide; [by eexists |]. destruct IH as [i ->]. by eexists.
Qed.

Lemma receiver_unique (s : state) (c : chan) (wid i : nat) (w : watcher) :
  inv s → receiver c (goroutines s) = Some wid →
  goroutines s !! i = Some w → w_stopChan w = c → i = wid.
Proof.
  intros Hinv Hr Hi Hc.
  apply receiver_Some in Hr as (w' & Hw' & Hc' & _).
  eapply (inv_go_inj _ Hinv); [done | done | congruence].
Qed.

Lemma watchers_of_lookup (email : string) (s : state) (w : watcher) :
  w ∈ watchers_of email s ↔
  ∃ wid, goroutines s !! wid = Some w ∧ w_email w = email ∧ running w.
Proof.
  unfold watchers_of. rewrite list_elem_of_filter, list_elem_of_lookup.
  naive_solver.
Qed.

(** Two goroutines that run for one address are one goroutine. *)
Lemma running_unique (s : state) (i j : nat) (wi wj : watcher) :
  inv s →
  goroutines s !! i = Some wi → goroutines s !! j = Some wj →
  running wi → running wj → w_email wi = w_email wj → i = j.
Proof.
  intros Hinv Hi Hj Ri Rj He.
  pose proof (inv_running _ Hinv _ _ Hi Ri) as Si.
  pose proof (inv_running _ Hinv _ _ Hj Rj) as Sj.
  eapply (inv_go_inj _ Hinv); [done | done | congruence].
Qed.

Lemma filter_length_le_1 {A} (P : A → Prop) `{∀ x, Decision (P x)}
    (l : list A) :
  (∀ i j x y, l !! i = Some x → l !! j = Some y → P x → P y → i = j) →
  (length (filter P l) ≤ 1)%nat.
Proof.
  induction l as [|a l IH]; intros Hu; simpl; [lia |].
  assert (IH' : (length (filter P l) ≤ 1)%nat).
  { apply IH. intros i j x y Hi Hj Px Py.
    assert (S i = S j) by (eapply Hu; done). lia. }
  rewrite filter_cons. destruct (decide (P a)) as [Pa | _]; [|done].
  destruct (filter P l) as [|b k] eqn:E; [simpl; lia |].
  assert (Hb : b ∈ filter P l) by (rewrite E; constructor).
  apply list_elem_of_filter in Hb as [Pb Hb].
  apply list_elem_of_lookup in Hb as [j Hj].
  assert (0%nat = S j) by (eapply Hu; done). lia.
Qed.

Lemma at_most_one_watcher (s : state) (email : string) :
  inv s → (length (watchers_of email s) ≤ 1)%nat.
Proof.
  intros Hinv. apply filter_length_le_1.
  intros i j x y Hi Hj [Ex Rx] [Ey Ry].
  eapply running_unique; try done. congruence.
Qed.

(** No goroutine runs for an address that is not registered. *)
Lemma no_watcher_unregistered (s : state) (email : string) :
  inv s → subscriptions s !! email = None → watchers_of email s = [].
Proof.
  intros Hinv Hsub.
  destruct (watchers_of email s) as [|w k] eqn:E; [done |].
  assert (Hw : w ∈ watchers_of email s) by (rewrite E; constructor).
  apply watchers_of_lookup in Hw as (wid & Hw & He & Hr).
  pose proof (inv_running _ Hinv _ _ Hw Hr). congruence.
Qed.

End Watchers.

(** * A goroutine that has returned *)

Section Returned.

Lemma checks_poll wid wid' email crn o smtp evs pc :
  pollOnce wid' email crn o smtp = (evs, pc) → checks wid evs = [].
Proof.
  unfold pollOnce. destruct o; try (by intros [= <- <-]).
  destruct (parseAvailableSeats body) as [n [e|]]; [by intros [= <- <-] |].
  destruct (0 <? n)%Z; [|by intros [= <- <-]].
  destruct smtp; by intros [= <- <-].
Qed.

Lemma step_returned (l : label) (s s' : state) (wid : nat) (w : watcher) :
  step l s = Some s' →
  goroutines s !! wid = Some w → w_pc w = WReturned →
  goroutines s' !! wid = Some w
  ∧ checks wid (trace s') = checks wid (trace s).
Proof.
  intros H Hw Hp.
  step_cases H; simpl; rewrite ?checks_app; simpl;
    rewrite ?(checks_poll _ _ _ _ _ _ _ _ Hpoll), ?app_nil_r;
    try (split; [done | done]);
    try (split; [by apply lookup_snoc_old | done]).
  all: try apply receiver_Some in Hrecv as (w' & Hw' & ? & ?).
  all: try (assert (wid ≠ n0) by (intros ->; simplify_eq/=; congruence)).
  all: try (assert (wid ≠ wid0) by (intros ->; simplify_eq/=; congruence)).
  all: rewrite ?decide_False by done.
  all: try (split; [by rewrite list_lookup_alter_ne | by rewrite ?app_nil_r]).
Qed.

Lemma exec_returned (ls : list label) (s s' : state) (wid : nat)
    (w : watcher) :
  exec ls s = Some s' →
  goroutines s !! wid = Some w → w_pc w = WReturned →
  goroutines s' !! wid = Some w
  ∧ checks wid (trace s') = checks wid (trace s).
Proof.
  revert s. induction ls as [|l ls IH]; intros s; simpl.
  - by intros [= <-].
  - destruct (step l s) as [s1|] eqn:E; [|done]. intros H Hw Hp.
    destruct (step_returned _ _ _ _ _ E Hw Hp) as [Hw1 Hc1].
    destruct (IH _ H Hw1 Hp) as [Hw2 Hc2]. split; [done | congruence].
Qed.

(** A send is received only by a goroutine that waits in its select. *)
Lemma step_new_signal (l : label) (s s' : state) (c : chan) :
  step l s = Some s' → c ∈ signals (trace s') →
  c ∈ signals (trace s)
  ∨ ∃ wid w, goroutines s !! wid = Some w ∧ w_stopChan w = c
             ∧ w_pc w = WSelect.
Proof.
  intros H Hc. step_cases H; simpl in Hc; rewind; try done; try (by left).
  all: right; eauto.
Qed.

Lemma returned_never_signalled (ls : list label) (s s' : state)
    (wid : nat) (w : watcher) :
  inv s → exec ls s = Some s' →
  goroutines s !! wid = Some w → w_pc w = WReturned →
  w_stopChan w ∈ signals (trace s') → w_stopChan w ∈ signals (trace s).
Proof.
  revert s. induction ls as [|l ls IH]; intros s Hinv; simpl.
  - by intros [= <-].
  - destruct (step l s) as [s1|] eqn:E; [|done]. intros H Hw Hp Hc.
    destruct (step_returned _ _ _ _ _ E Hw Hp) as [Hw1 _].
    pose proof (step_inv _ _ _ Hinv E) as Hinv1.
    pose proof (IH _ Hinv1 H Hw1 Hp Hc) as Hc1.
    destruct (step_new_signal _ _ _ _ E Hc1)
      as [? | (i & w' & Hw' & Hc' & Hp')]; [done |].
    assert (i = wid) as -> by (eapply (inv_go_inj _ Hinv); done).
    congruence.
Qed.

End Returned.

Section ServeReachable.

Lemma run_handler_reachable (fuel tid : nat) (s s' : state) (a : response) :
  reachable s → run_handler fuel tid s = Some (a, s') → reachable s'.
Proof.
  revert s. induction fuel as [|fuel IH]; intros s Hr; simpl.
  - destruct (handlers s !! tid) as [[]|]; try done. by intros [= _ <-].
  - destruct (handler_step tid s) as [s1|] eqn:E.
    + assert (Hr1 : reachable s1) by (by apply (reachable_step (Handler tid) s)).
      destruct (handlers s !! tid) as [[]|]; try (by apply IH).
      by intros [= _ <-].
    + destruct (handlers s !! tid) as [[]|]; try done. by intros [= _ <-].
Qed.

Lemma serve_reachable (r : request) (s s' : state) (a : response) :
  reachable s → serve r s = Some (a, s') → reachable s'.
Proof.
  intros Hr. apply run_handler_reachable.
  by apply (reachable_step (Arrive r) s).
Qed.

End ServeReachable.

(** * The claims *)

Section Registry.

(** C4.  Stop on an address that is not registered (never started, or
    already stopped) answers NotFound and leaves the registry, the
    goroutines and the channels as they were. *)
Theorem stop_unknown_is_not_found (s : state) (email : string) :
  subscriptionsMux s = None → email ≠ "" →
  subscriptions s !! email = None →
  ∃ s', serve (Stop email) s = Some (NotFound, s')
        ∧ subscriptions s' = subscriptions s
        ∧ goroutines s' = goroutines s
        ∧ closed s' = closed s
        ∧ chans s' = chans s
        ∧ subscriptionsMux s' = None.
Proof.
  intros Hm He Hsub. eexists. split; [by apply serve_stop_miss |]. done.
Qed.

Lemma stop_unknown_is_not_found_witness :
  ∃ s', serve (Stop "a@neu.edu") init = Some (NotFound, s')
        ∧ subscriptions s' = subscriptions init
        ∧ goroutines s' = goroutines init
        ∧ closed s' = closed init
        ∧ chans s' = chans init
        ∧ subscriptionsMux s' = None.
Proof.
  apply (stop_unknown_is_not_found init "a@neu.edu"); done.
Defined.

End Registry.

Section Runs.

Lemma after_reachable (ls : list label) :
  exec ls init = Some (after ls) → reachable (after ls).
Proof. intros H. by exists ls. Qed.

End Runs.

Section AtMostOne.

(** C1, as stated, fails: a registered address can have no goroutine at
    all.  In the first state the handler that registered [alice] has
    released the mutex and has not yet launched her goroutine; in the
    second her goroutine has returned on a failed request and her entry
    is still there.  In both a second Start answers AlreadyActive. *)
Lemma registered_without_watcher :
  (reachable (after alice_launching)
   ∧ answer (Start alice "67890") (after alice_launching)
     = Some AlreadyActive
   ∧ ¬ one_watcher_when_registered (after alice_launching))
  ∧ (reachable (after alice_failed)
     ∧ answer (Start alice "67890") (after alice_failed)
       = Some AlreadyActive
     ∧ ¬ one_watcher_when_registered (after alice_failed)).
Proof.
  split; (split; [apply after_reachable; by vm_compute |]);
    (split; [by vm_compute |]).
  - intros H. specialize (H alice).
    assert (E : is_Some (subscriptions (after alice_launching) !! alice))
      by (exists 0%nat; by vm_compute).
    apply H in E. vm_compute in E. discriminate E.
  - intros H. specialize (H alice).
    assert (E : is_Some (subscriptions (after alice_failed) !! alice))
      by (exists 0%nat; by vm_compute).
    apply H in E. vm_compute in E. discriminate E.
Qed.

(** C1, amended.  A Start for a registered address answers
    AlreadyActive, leaves the registry as it was and launches no
    goroutine; at most one goroutine runs for the address. *)
Theorem start_registered_already_active (s : state) (email crn : string) :
  reachable s → subscriptionsMux s = None → email ≠ "" → crn ≠ "" →
  is_Some (subscriptions s !! email) →
  ∃ s', serve (Start email crn) s = Some (AlreadyActive, s')
        ∧ subscriptions s' = subscriptions s
        ∧ goroutines s' = goroutines s
        ∧ (length (watchers_of email s') ≤ 1)%nat.
Proof.
  intros Hr Hm He Hc [c Hsub].
  eexists. split; [by eapply serve_start_dup |].
  split; [done |]. split; [done |].
  apply (at_most_one_watcher s email). by apply reachable_inv.
Qed.

Lemma start_registered_already_active_witness :
  ∃ s', serve (Start alice "67890") (after alice_started)
        = Some (AlreadyActive, s')
        ∧ subscriptions s' = subscriptions (after alice_started)
        ∧ goroutines s' = goroutines (after alice_started)
        ∧ (length (watchers_of alice s') ≤ 1)%nat.
Proof.
  apply (start_registered_already_active (after alice_started) alice "67890").
  - apply after_reachable. by vm_compute.
  - by vm_compute.
  - done.
  - done.
  - exists 0%nat. by vm_compute.
Defined.

End AtMostOne.

Section CheckerFailure.

(** C2 at the failing input: [alice] is started and the first request of
    her goroutine fails.  The goroutine has returned, her entry is still
    in the registry, a Stop for her never answers and a Start for her
    answers AlreadyActive. *)
Theorem failed_check_keeps_entry :
  let s := after alice_failed in
  reachable s
  ∧ goroutines s = [Watcher alice "12345" 0%nat WReturned]
  ∧ subscriptions s !! alice = Some 0%nat
  ∧ answer (Stop alice) s = None
  ∧ answer (Start alice "12345") s = Some AlreadyActive
  ∧ ¬ freed_by_failure s alice "12345".
Proof.
  cbv zeta. split; [apply after_reachable; by vm_compute |].
  split; [by vm_compute |]. split; [by vm_compute |].
  split; [by vm_compute |]. split; [by vm_compute |].
  intros [H _]. vm_compute in H. discriminate H.
Qed.

End CheckerFailure.

Section Polling.

Lemma lookup_set_wpc_eq (gs : list watcher) (wid : nat) (w : watcher)
    (pc : wpc) :
  gs !! wid = Some w → alter (at_pc pc) wid gs !! wid = Some (at_pc pc w).
Proof. intros H. by rewrite list_lookup_alter_eq, H. Qed.

(** C5.  When the check of a tick yields a count, the goroutine sends one
    mail, to its address and with that count and course, if the count is
    positive and none otherwise, and then waits in its select again. *)
Theorem notifies_iff_positive (s : state) (wid : nat) (email crn : string)
    (c : chan) (body : string) (count : Z) (smtp : option error) :
  goroutines s !! wid = Some (Watcher email crn c WRequest) →
  parseAvailableSeats body = (count, None) →
  ∃ s', step (Reply wid (HttpBody body) smtp) s = Some s'
        ∧ goroutines s' !! wid = Some (Watcher email crn c WSelect)
        ∧ mails (trace s') =
            mails (trace s)
              ++ (if 0 <? count then [(email, count, crn)] else []).
Proof.
  intros Hw Hparse. simpl. rewrite Hw. unfold pollOnce. rewrite Hparse.
  destruct (0 <? count) eqn:E.
  - eexists. split; [done |]. simpl.
    split; [by rewrite (lookup_set_wpc_eq _ _ _ _ Hw) |].
    rewrite mails_app. by destruct smtp.
  - eexists. split; [done |]. simpl.
    split; [by rewrite (lookup_set_wpc_eq _ _ _ _ Hw) |].
    by rewrite mails_app.
Qed.

Lemma notifies_iff_positive_witness :
  ∃ s', step (Reply 0 (HttpBody (page "5")) None) (after alice_polling)
        = Some s'
        ∧ goroutines s' !! 0%nat = Some (Watcher alice "12345" 0%nat WSelect)
        ∧ mails (trace s') =
            mails (trace (after alice_polling))
              ++ (if 0 <? 5 then [(alice, 5, "12345")] else []).
Proof.
  apply (notifies_iff_positive (after alice_polling) 0 alice "12345" 0%nat
           (page "5") 5 None); by vm_compute.
Defined.

(** C6.  When smtp.SendMail fails the error is logged, the goroutine
    waits in its select again, and its next tick begins a check. *)
Theorem mail_failure_is_not_fatal (s : state) (wid : nat)
    (email crn : string) (c : chan) (body : string) (count : Z)
    (err : error) :
  goroutines s !! wid = Some (Watcher email crn c WRequest) →
  parseAvailableSeats body = (count, None) → 0 < count →
  ∃ s1 s2,
    step (Reply wid (HttpBody body) (Some err)) s = Some s1
    ∧ EvLog wid (LogMailError err) ∈ trace s1
    ∧ goroutines s1 !! wid = Some (Watcher email crn c WSelect)
    ∧ step (Tick wid) s1 = Some s2
    ∧ checks wid (trace s2) = checks wid (trace s1) ++ [crn]
    ∧ goroutines s2 !! wid = Some (Watcher email crn c WRequest).
Proof.
  intros Hw Hparse Hpos. simpl. rewrite Hw. unfold pollOnce.
  rewrite Hparse. apply Z.ltb_lt in Hpos. rewrite Hpos.
  eexists _, _. split; [done |]. simpl.
  rewrite (lookup_set_wpc_eq _ _ _ _ Hw). simpl.
  split; [|split; [done |]; split; [done |]; split].
  - apply elem_of_app. right. unfold sendEmailNotification.
    apply list_elem_of_In. simpl. auto.
  - unfold emit, set_wpc; simpl. rewrite checks_app. simpl.
    by rewrite decide_True.
  - unfold emit, set_wpc; simpl.
    rewrite (lookup_set_wpc_eq _ _
               (at_pc WSelect (Watcher email crn c WRequest)));
      [done | by apply lookup_set_wpc_eq].
Qed.

Lemma mail_failure_is_not_fatal_witness :
  ∃ s1 s2,
    step (Reply 0 (HttpBody (page "5")) (Some ErrSendMail))
      (after alice_polling) = Some s1
    ∧ EvLog 0 (LogMailError ErrSendMail) ∈ trace s1
    ∧ goroutines s1 !! 0%nat = Some (Watcher alice "12345" 0%nat WSelect)
    ∧ step (Tick 0) s1 = Some s2
    ∧ checks 0 (trace s2) = checks 0 (trace s1) ++ ["12345"]
    ∧ goroutines s2 !! 0%nat = Some (Watcher alice "12345" 0%nat WRequest).
Proof.
  apply (mail_failure_is_not_fatal (after alice_polling) 0 alice "12345"
           0%nat (page "5") 5 ErrSendMail); by vm_compute.
Defined.

(** C7.  Once Stop has answered Stopped, every goroutine that polled for
    the address has returned, and whatever happens next none of them
    begins a check again. *)
Theorem stop_ends_polling (s s1 : state) (email : string) :
  reachable s → serve (Stop email) s = Some (Stopped, s1) →
  watchers_of email s1 = []
  ∧ ∀ ls s2 wid w,
      exec ls s1 = Some s2 →
      goroutines s !! wid = Some w → w_email w = email →
      checks wid (trace s2) = checks wid (trace s1)
      ∧ ∃ w', goroutines s2 !! wid = Some w' ∧ w_pc w' = WReturned.
Proof.
  intros Hr H.
  pose proof (reachable_inv _ Hr) as Hinv.
  pose proof (serve_reachable _ _ _ _ Hr H) as Hr1.
  destruct (serve_stop_Stopped _ _ _ H)
    as (Hm & He & c & wid0 & Hsub & Hcl & Hrecv).
  rewrite (serve_stop_hit s email c wid0) in H by done.
  injection H as <-. split.
  - apply no_watcher_unregistered; [by apply reachable_inv |].
    simpl. by rewrite lookup_delete_eq.
  - intros ls s2 wid w Hexec Hw Hemail.
    assert (Hw1 : ∃ w1, alter (at_pc WReturned) wid0 (goroutines s) !! wid
                        = Some w1 ∧ w_pc w1 = WReturned).
    { destruct (decide (wid = wid0)) as [-> | Hne].
      - exists (at_pc WReturned w).
        split; [by apply lookup_set_wpc_eq | done].
      - exists w. split; [by rewrite list_lookup_alter_ne |].
        destruct (decide (w_pc w = WReturned)) as [? | Hrun]; [done |].
        pose proof (inv_running _ Hinv _ _ Hw Hrun) as Hreg.
        exfalso. apply Hne.
        eapply receiver_unique; [done | done | done | congruence]. }
    destruct Hw1 as (w1 & Hw1 & Hp1).
    destruct (exec_returned _ _ _ _ _ Hexec Hw1 Hp1) as [Hw2 Hc2].
    split; [done |]. by exists w1.
Qed.

Lemma stop_ends_polling_witness :
  ∃ s1, serve (Stop alice) (after alice_started) = Some (Stopped, s1)
        ∧ watchers_of alice s1 = []
        ∧ ∀ s2, exec [Tick 0] s1 = Some s2 → False.
Proof.
  assert (H : ∃ s1, serve (Stop alice) (after alice_started)
                    = Some (Stopped, s1)).
  { eexists. by vm_compute. }
  destruct H as [s1 H]. exists s1. split; [done |].
  assert (Hr : reachable (after alice_started))
    by (apply after_reachable; by vm_compute).
  destruct (stop_ends_polling _ _ _ Hr H) as [Hnone Hnever].
  split; [done |]. intros s2 Hexec.
  assert (Hw : goroutines (after alice_started) !! 0%nat
               = Some (Watcher alice "12345" 0%nat WSelect))
    by (by vm_compute).
  destruct (Hnever _ _ _ _ Hexec Hw eq_refl) as [Hc (w' & Hw' & Hp')].
  simpl in Hexec.
  destruct (goroutines s1 !! 0%nat) as [[? ? ? []]|] eqn:E;
    try discriminate Hexec.
  injection Hexec as <-. simpl in Hc. rewrite checks_app in Hc. simpl in Hc.
  apply (f_equal length) in Hc. rewrite length_app in Hc. simpl in Hc. lia.
Defined.

End Polling.

Section Cancellation.

(** C8, as stated, fails: when handler 1 has sent on [alice]'s channel
    (line 67) her entry is still in the registry; line 69 deletes it. *)
Lemma signalled_while_registered :
  reachable (after alice_signalled)
  ∧ ¬ removed_before_signal (after alice_signalled).
Proof.
  split; [apply after_reachable; by vm_compute |].
  intros H. apply (H 0%nat alice); [|by vm_compute].
  assert (signals (trace (after alice_signalled)) = [0%nat]) as ->
    by (by vm_compute).
  constructor.
Qed.

(** C8, amended.  No channel is sent on twice.  While the entry of a
    channel that was sent on is still in the registry, the handler that
    sent holds the mutex and stands before the close or the delete.  A
    closed channel was sent on before.  The channel of a goroutine that
    has returned, on the signal or by itself, is not sent on again. *)
Theorem signalled_once (s : state) :
  reachable s →
  NoDup (signals (trace s))
  ∧ (∀ c email,
       c ∈ signals (trace s) → subscriptions s !! email = Some c →
       ∃ tid pc, subscriptionsMux s = Some tid
                 ∧ handlers s !! tid = Some pc ∧ signalling email c pc)
  ∧ (∀ c, c ∈ closed s → c ∈ signals (trace s))
  ∧ (∀ ls s' wid w,
       exec ls s = Some s' →
       goroutines s !! wid = Some w → w_pc w = WReturned →
       w_stopChan w ∈ signals (trace s') →
       w_stopChan w ∈ signals (trace s)).
Proof.
  intros Hr. pose proof (reachable_inv _ Hr) as Hinv.
  split; [apply (inv_once _ Hinv) |]. split; [|split].
  - intros c email Hc Hsub.
    destruct (inv_signalled_sub _ Hinv _ _ Hc Hsub) as (tid & pc & Hpc & Hs).
    exists tid, pc. split; [|done].
    apply (inv_lock _ Hinv _ _ Hpc). by destruct Hs as [-> | ->].
  - intros c Hc. by apply (inv_closed _ Hinv).
  - intros ls s' wid w. by apply returned_never_signalled.
Qed.

Lemma signalled_once_witness :
  NoDup (signals (trace (after alice_signalled)))
  ∧ ∃ tid pc, subscriptionsMux (after alice_signalled) = Some tid
              ∧ handlers (after alice_signalled) !! tid = Some pc
              ∧ signalling alice 0%nat pc.
Proof.
  assert (Hr : reachable (after alice_signalled))
    by (apply after_reachable; by vm_compute).
  destruct (signalled_once _ Hr) as (Hnd & Hheld & _).
  split; [done |]. apply Hheld; [|by vm_compute].
  assert (signals (trace (after alice_signalled)) = [0%nat]) as ->
    by (by vm_compute).
  constructor.
Defined.

(** C9, as stated, fails: handler 1 holds the mutex and waits on line 67
    for [alice]'s goroutine, which is busy with its request; meanwhile
    the Start of [bob], handler 2, waits on line 43. *)
Lemma stop_waits_under_lock :
  reachable (after alice_in_flight)
  ∧ ¬ lock_never_waits (after alice_in_flight)
  ∧ handlers (after alice_in_flight) !! 2%nat = Some (StartLock bob "67890")
  ∧ handler_step 2 (after alice_in_flight) = None.
Proof.
  split; [apply after_reachable; by vm_compute |].
  split; [|split; by vm_compute].
  intros H. destruct (H 1%nat) as [s' E]; [by vm_compute |].
  vm_compute in E. discriminate E.
Qed.

(** C9, amended.  The handler that holds the mutex can always run its
    next statement, unless that statement is the send of line 67 and no
    goroutine waits in its select for the channel. *)
Theorem lock_waits_only_for_send (s : state) (tid : nat) :
  reachable s → subscriptionsMux s = Some tid →
  ∃ pc, handlers s !! tid = Some pc ∧ holds_lock pc
        ∧ (is_Some (handler_step tid s)
           ↔ ∀ email c, pc = StopSend email c →
                        is_Some (receiver c (goroutines s))).
Proof.
  intros Hr Hm. pose proof (reachable_inv _ Hr) as Hinv.
  destruct (inv_held _ Hinv _ Hm) as (pc & Hpc & Hh).
  exists pc. split; [done |]. split; [done |].
  assert (Hopen : ∀ email c, subscriptions s !! email = Some c →
            (∀ t, handlers s !! t = Some (StopDelete email c) → t ≠ tid) →
            c ∉ closed s).
  { intros email c Hsub Hne Hcl.
    destruct (inv_closed _ Hinv _ Hcl) as [_ Hd].
    destruct (Hd _ Hsub) as [t Ht]. apply (Hne _ Ht).
    pose proof (inv_lock _ Hinv _ _ Ht I). congruence. }
  unfold handler_step. rewrite Hpc.
  destruct pc; try (by destruct Hh); simpl;
    try (split; [by intros _ ? ? [=] | by eexists]);
    try (destruct (subscriptions s !! email);
         (split; [by intros _ ? ? [=] | by eexists])).
  - rewrite decide_False.
    + split.
      * intros [s' E] e c [= <- <-].
        destruct (receiver stopChan (goroutines s)); [by eexists | done].
      * intros H. destruct (H _ _ eq_refl) as [wid ->]. by eexists.
    + apply (Hopen email); [by apply (inv_send _ Hinv tid) |].
      intros t Ht ->. congruence.
  - rewrite decide_False; [split; [by intros _ ? ? [=] | by eexists] |].
    apply (Hopen email).
    + by apply (inv_signalling _ Hinv tid (StopClose email stopChan));
        [| left].
    + intros t Ht ->. congruence.
Qed.

Lemma lock_waits_only_for_send_witness :
  ∃ pc, handlers (after alice_signalled) !! 1%nat = Some pc ∧ holds_lock pc
        ∧ (is_Some (handler_step 1 (after alice_signalled))
           ↔ ∀ email c, pc = StopSend email c →
               is_Some (receiver c (goroutines (after alice_signalled)))).
Proof.
  apply (lock_waits_only_for_send (after alice_signalled) 1).
  - apply after_reachable. by vm_compute.
  - by vm_compute.
Defined.

End Cancellation.

Section Parser.

Lemma page_matches (cap : string) :
  is_number cap → contains_pattern (page cap).
Proof.
  intros Hn. exists "<span class='status-bold'>", cap, "<br/>".
  by split.
Qed.

(** C10, as stated, fails: a page that has the pattern with a numeral
    too large for an int makes the parser fail. *)
Lemma overflow_page_fails :
  ¬ fails_iff_no_pattern (page "99999999999999999999").
Proof.
  intros [H _]. apply H.
  - eexists. by vm_compute.
  - apply page_matches. exists "99999999999999999999".
    split; [done |]. split; [by vm_compute | by left].
Qed.

(** C10, amended.  The parser fails exactly when the page has no match
    of the pattern or the numeral of its leftmost match is outside the
    range of int; otherwise it returns the integer of that numeral,
    negative ones too, and on a count that is not positive the goroutine
    sends no mail and goes on. *)
Theorem parse_fails_iff (html : string) :
  (is_Some (parseAvailableSeats html).2
   ↔ ¬ contains_pattern html
     ∨ ∃ cap, leftmost_capture html cap
              ∧ ¬ in_int_range (int_of_decimal cap))
  ∧ (∀ cap, leftmost_capture html cap →
            in_int_range (int_of_decimal cap) →
            parseAvailableSeats html = (int_of_decimal cap, None))
  ∧ (∀ n wid email crn smtp,
       parseAvailableSeats html = (n, None) → n ≤ 0 →
       pollOnce wid email crn (HttpBody html) smtp = ([], WSelect)).
Proof.
  split; [|split].
  - destruct (Find_shape html) as [E | [cap E]].
    + pose proof E as Hno. apply Find_none in Hno.
      rewrite (parse_no_match _ Hno). simpl. split; [by left | by eexists].
    + pose proof E as Hl. apply Find_some in Hl.
      rewrite (parse_match _ _ Hl).
      rewrite (Atoi_number_error _ (leftmost_capture_number _ _ Hl)).
      split.
      * intros Hout. right. by exists cap.
      * intros [Hno | (cap' & Hl' & Hout)].
        -- exfalso. apply Hno. apply contains_leftmost. by exists cap.
        -- by rewrite (leftmost_capture_unique _ _ _ Hl Hl').
  - intros cap Hl Hin. rewrite (parse_match _ _ Hl).
    apply Atoi_number_value; [by eapply leftmost_capture_number | done].
  - intros n wid email crn smtp Hp Hn. unfold pollOnce. rewrite Hp.
    by destruct (Z.ltb_spec 0 n); [lia |].
Qed.

Lemma parse_fails_iff_witness :
  parseAvailableSeats (page "-3") = (-3, None)
  ∧ pollOnce 0 alice "12345" (HttpBody (page "-3")) None = ([], WSelect).
Proof.
  destruct (parse_fails_iff (page "-3")) as (_ & Hval & Hquiet).
  assert (Hl : leftmost_capture (page "-3") "-3")
    by (apply Find_some; by vm_compute).
  assert (Hp : parseAvailableSeats (page "-3") = (-3, None)).
  { apply (Hval "-3" Hl). by vm_compute. }
  split; [done |]. by apply (Hquiet (-3)).
Defined.

End Parser.

(** * Further facts read off the code *)

Section Validation.

(** X1.  A Start with an empty e-mail or an empty CRN answers 400 before
    it touches the mutex: it answers even while another handler holds
    the mutex, and registry, mutex, channels and goroutines stay as they
    were (lines 36-41). *)
Theorem start_rejects_empty (s : state) (email crn : string) :
  email = "" ∨ crn = "" →
  ∃ s', serve (Start email crn) s = Some (BadRequest, s')
        ∧ subscriptions s' = subscriptions s
        ∧ subscriptionsMux s' = subscriptionsMux s
        ∧ chans s' = chans s
        ∧ closed s' = closed s
        ∧ goroutines s' = goroutines s.
Proof.
  intros He. eexists. split; [by apply serve_start_bad |]. done.
Qed.

Lemma start_rejects_empty_witness :
  ∃ s', serve (Start alice "") (after alice_in_flight)
        = Some (BadRequest, s')
        ∧ subscriptions s' = subscriptions (after alice_in_flight)
        ∧ subscriptionsMux s' = subscriptionsMux (after alice_in_flight)
        ∧ chans s' = chans (after alice_in_flight)
        ∧ closed s' = closed (after alice_in_flight)
        ∧ goroutines s' = goroutines (after alice_in_flight).
Proof.
  apply (start_rejects_empty (after alice_in_flight) alice ""). by right.
Defined.

(** X2.  A Stop with an empty e-mail answers 400 before it touches the
    mutex and changes nothing (lines 59-63). *)
Theorem stop_rejects_empty (s : state) :
  ∃ s', serve (Stop "") s = Some (BadRequest, s')
        ∧ subscriptions s' = subscriptions s
        ∧ subscriptionsMux s' = subscriptionsMux s
        ∧ chans s' = chans s
        ∧ closed s' = closed s
        ∧ goroutines s' = goroutines s.
Proof.
  eexists. split; [by apply serve_stop_bad |]. done.
Qed.

End Validation.

Section Exclusion.

(** X3.  Mutual exclusion: at any time at most one handler stands
    between Lock and Unlock (lines 43-52 and 65-74), and it is the one
    recorded as holder of the mutex. *)
Theorem one_handler_in_critical_section (s : state) (tid tid' : nat)
    (pc pc' : hpc) :
  reachable s →
  handlers s !! tid = Some pc → holds_lock pc →
  handlers s !! tid' = Some pc' → holds_lock pc' →
  tid = tid' ∧ subscriptionsMux s = Some tid.
Proof.
  intros Hr Hpc Hh Hpc' Hh'. pose proof (reachable_inv _ Hr) as Hinv.
  pose proof (inv_lock _ Hinv _ _ Hpc Hh).
  pose proof (inv_lock _ Hinv _ _ Hpc' Hh').
  split; [congruence | done].
Qed.

Lemma one_handler_in_critical_section_witness :
  1%nat = 1%nat ∧ subscriptionsMux (after alice_signalled) = Some 1%nat.
Proof.
  apply (one_handler_in_critical_section (after alice_signalled) 1 1
           (StopClose alice 0%nat) (StopClose alice 0%nat)).
  - apply after_reachable. by vm_compute.
  - by vm_compute.
  - exact I.
  - by vm_compute.
  - exact I.
Defined.

(** X4.  The send of line 67 and the close of line 68 never meet a
    closed channel: neither statement panics. *)
Theorem stop_never_panics (s : state) (tid : nat) (email : string)
    (c : chan) :
  reachable s →
  handlers s !! tid = Some (StopSend email c)
  ∨ handlers s !! tid = Some (StopClose email c) →
  c ∉ closed s.
Proof.
  intros Hr Hpc Hcl. pose proof (reachable_inv _ Hr) as Hinv.
  assert (Hsub : subscriptions s !! email = Some c).
  { destruct Hpc as [Hpc | Hpc].
    - by apply (inv_send _ Hinv tid).
    - by apply (inv_signalling _ Hinv tid (StopClose email c)); [| left]. }
  destruct (inv_closed _ Hinv _ Hcl) as [_ Hd].
  destruct (Hd _ Hsub) as [t Ht].
  pose proof (inv_lock _ Hinv _ _ Ht I) as Ht'.
  destruct Hpc as [Hpc | Hpc];
    pose proof (inv_lock _ Hinv _ _ Hpc I); congruence.
Qed.

Lemma stop_never_panics_witness :
  0%nat ∉ closed (after alice_signalled).
Proof.
  apply (stop_never_panics (after alice_signalled) 1 alice 0%nat).
  - apply after_reachable. by vm_compute.
  - right. by vm_compute.
Defined.

(** X5.  A goroutine that waits in its select never finds its stop
    channel closed: the close of line 68 comes after the goroutine has
    received the value sent on line 67 and left its loop. *)
Theorem closed_channel_has_no_waiter (s : state) (wid : nat) (w : watcher) :
  reachable s → goroutines s !! wid = Some w →
  w_stopChan w ∈ closed s → w_pc w = WReturned.
Proof.
  intros Hr Hw Hcl. pose proof (reachable_inv _ Hr) as Hinv.
  destruct (inv_closed _ Hinv _ Hcl) as [Hsig _].
  by apply (inv_signalled _ Hinv (w_stopChan w) wid).
Qed.

Lemma closed_channel_has_no_waiter_witness :
  w_pc (Watcher alice "12345" 0%nat WReturned) = WReturned.
Proof.
  apply (closed_channel_has_no_waiter
           (after (alice_started
                     ++ Arrive (Stop alice) :: replicate 7 (Handler 1)))
           0 (Watcher alice "12345" 0%nat WReturned)).
  - apply after_reachable. by vm_compute.
  - by vm_compute.
  - assert (closed (after (alice_started
              ++ Arrive (Stop alice) :: replicate 7 (Handler 1)))
            = [0%nat]) as -> by (by vm_compute).
    constructor.
Defined.

End Exclusion.

Section Launch.

(** X6.  A Start for a non-empty address that is not registered, with
    the mutex free, answers Started, registers the address with a stop
    channel that no entry and no goroutine had before, and launches one
    goroutine for the address and the CRN of the request; that goroutine
    is then the only one running for the address (lines 43-55). *)
Theorem start_launches_one (s : state) (email crn : string) :
  reachable s → subscriptionsMux s = None → email ≠ "" → crn ≠ "" →
  subscriptions s !! email = None →
  ∃ s', serve (Start email crn) s = Some (Started, s')
        ∧ subscriptions s' = <[email := chans s]> (subscriptions s)
        ∧ goroutines s' =
            goroutines s ++ [Watcher email crn (chans s) WSelect]
        ∧ watchers_of email s' = [Watcher email crn (chans s) WSelect]
        ∧ (∀ email', subscriptions s !! email' ≠ Some (chans s))
        ∧ (∀ wid w, goroutines s !! wid = Some w →
                    w_stopChan w ≠ chans s).
Proof.
  intros Hr Hm He Hc Hsub. pose proof (reachable_inv _ Hr) as Hinv.
  eexists. split; [by apply serve_start_new |]. simpl.
  split; [done |]. split; [done |]. split; [|split].
  - unfold watchers_of. simpl. rewrite filter_app.
    change (filter _ (goroutines s)) with (watchers_of email s).
    rewrite (no_watcher_unregistered _ _ Hinv Hsub). simpl.
    rewrite filter_cons, decide_True; [done |]. by split.
  - intros email' H. apply (inv_made_sub _ Hinv) in H. lia.
  - intros wid w Hw H. apply (inv_made_go _ Hinv) in Hw. lia.
Qed.

Lemma start_launches_one_witness :
  ∃ s', serve (Start bob "67890") (after alice_started) = Some (Started, s')
        ∧ watchers_of bob s' = [Watcher bob "67890" 1%nat WSelect].
Proof.
  destruct (start_launches_one (after alice_started) bob "67890")
    as (s' & H & _ & _ & Hw & _).
  - apply after_reachable. by vm_compute.
  - by vm_compute.
  - done.
  - done.
  - by vm_compute.
  - exists s'. split; [done |]. exact Hw.
Defined.

(** X7.  Every goroutine that has not returned polls for a registered
    address and holds the stop channel of that entry; so an address that
    is not registered has no running goroutine. *)
Theorem running_goroutine_is_registered (s : state) :
  reachable s →
  (∀ wid w, goroutines s !! wid = Some w → running w →
            subscriptions s !! w_email w = Some (w_stopChan w))
  ∧ (∀ email, subscriptions s !! email = None → watchers_of email s = []).
Proof.
  intros Hr. pose proof (reachable_inv _ Hr) as Hinv.
  split; [apply (inv_running _ Hinv) |].
  intros email. by apply no_watcher_unregistered.
Qed.

Lemma running_goroutine_is_registered_witness :
  subscriptions (after alice_polling) !! alice = Some 0%nat
  ∧ watchers_of bob (after alice_polling) = [].
Proof.
  destruct (running_goroutine_is_registered (after alice_polling))
    as (Hreg & Hnone).
  - apply after_reachable. by vm_compute.
  - split.
    + apply (Hreg 0%nat (Watcher alice "12345" 0%nat WRequest));
        by vm_compute.
    + apply Hnone. by vm_compute.
Defined.

End Launch.

Section Failure.

(** X8.  On each of the four error branches of the tick (lines 92-116:
    the request cannot be built, sent or read, or the page cannot be
    parsed) the goroutine logs one line and returns; it sends no mail
    and touches neither the registry nor the mutex nor any channel. *)
Theorem failed_poll_returns (s : state) (wid : nat) (email crn : string)
    (c : chan) (o : http_outcome) (smtp : option error) :
  goroutines s !! wid = Some (Watcher email crn c WRequest) →
  poll_fails o →
  ∃ s' l, step (Reply wid o smtp) s = Some s'
        ∧ goroutines s' !! wid = Some (Watcher email crn c WReturned)
        ∧ trace s' = trace s ++ [EvLog wid l]
        ∧ subscriptions s' = subscriptions s
        ∧ subscriptionsMux s' = subscriptionsMux s
        ∧ closed s' = closed s.
Proof.
  intros Hw Hf. simpl. rewrite Hw.
  assert (Hgo : ∀ pc, alter (at_pc pc) wid (goroutines s) !! wid
                      = Some (Watcher email crn c pc)).
  { intros pc. by rewrite list_lookup_alter_eq, Hw. }
  destruct o as [| | | body]; simpl;
    try (eexists _, _; split; [done |]; simpl; by rewrite Hgo).
  simpl in Hf. destruct (parseAvailableSeats body) as [n [e|]];
    [| by destruct Hf].
  eexists _, _. split; [done |]. simpl. by rewrite Hgo.
Qed.

Lemma failed_poll_returns_witness :
  ∃ s' l, step (Reply 0 (HttpBody "<html>busy</html>") None)
            (after alice_polling) = Some s'
        ∧ goroutines s' !! 0%nat = Some (Watcher alice "12345" 0%nat WReturned)
        ∧ trace s' = trace (after alice_polling) ++ [EvLog 0 l]
        ∧ subscriptions s' = subscriptions (after alice_polling)
        ∧ subscriptionsMux s' = subscriptionsMux (after alice_polling)
        ∧ closed s' = closed (after alice_polling).
Proof.
  apply (failed_poll_returns (after alice_polling) 0 alice "12345" 0%nat
           (HttpBody "<html>busy</html>") None).
  - by vm_compute.
  - simpl. eexists. by vm_compute.
Defined.

End Failure.

Section Abandoned.

Lemma step_keeps_unsignalled_entry (l : label) (s s' : state)
    (email : string) (c : chan) :
  inv s → step l s = Some s' →
  subscriptions s !! email = Some c → c ∉ signals (trace s) →
  subscriptions s' !! email = Some c.
Proof.
  intros Hinv H Hsub Hc.
  step_cases H; simpl; try done; sat; fwd; try close.
Qed.

Lemma serve_stop_NotFound (s s1 : state) (email : string) :
  serve (Stop email) s = Some (NotFound, s1) →
  subscriptions s !! email = None.
Proof.
  intros H.
  destruct (decide (email = "")) as [-> | Hok].
  { by rewrite serve_stop_bad in H. }
  destruct (subscriptionsMux s) as [tid|] eqn:Hm.
  { destruct (serve_locked (Stop email) s tid Hm) as [E | [s' E]];
      by rewrite E in H. }
  destruct (subscriptions s !! email) as [c|] eqn:Hsub; [|done].
  destruct (decide (c ∈ closed s)) as [Hcl | Hcl].
  { by rewrite (serve_stop_panic s email c) in H. }
  destruct (receiver c (goroutines s)) as [wid|] eqn:Hrecv.
  - by rewrite (serve_stop_hit s email c wid) in H.
  - by rewrite (serve_stop_blocked s email c) in H.
Qed.

(** X9.  An entry whose goroutine has returned without having been
    signalled (it returned on an error branch of lines 92-116) stays in
    the registry whatever happens next: from then on no Start for the
    address answers Started and no Stop for it answers Stopped or
    NotFound. *)
Theorem abandoned_entry_stays (ls : list label) (s s' : state) (wid : nat)
    (w : watcher) :
  reachable s →
  goroutines s !! wid = Some w → w_pc w = WReturned →
  w_stopChan w ∉ signals (trace s) →
  subscriptions s !! w_email w = Some (w_stopChan w) →
  exec ls s = Some s' →
  subscriptions s' !! w_email w = Some (w_stopChan w)
  ∧ (∀ crn, answer (Start (w_email w) crn) s' ≠ Some Started)
  ∧ answer (Stop (w_email w)) s' ≠ Some Stopped
  ∧ answer (Stop (w_email w)) s' ≠ Some NotFound.
Proof.
  intros Hr Hw Hp Hc Hsub Hexec.
  assert (Hsub' : subscriptions s' !! w_email w = Some (w_stopChan w)).
  { pose proof (reachable_inv _ Hr) as Hinv. clear Hr.
    revert s Hinv Hw Hc Hsub Hexec.
    induction ls as [|l ls IH]; intros s Hinv Hw Hc Hsub; simpl.
    - by intros [= <-].
    - destruct (step l s) as [s1|] eqn:E; [|done]. intros Hexec.
      apply (IH s1).
      + by eapply step_inv.
      + by destruct (step_returned _ _ _ _ _ E Hw Hp).
      + intros Hin. apply Hc.
        apply (returned_never_signalled [l] s s1 wid w); try done.
        simpl. by rewrite E.
      + by eapply step_keeps_unsignalled_entry.
      + done. }
  pose proof (reachable_exec _ _ _ Hr Hexec) as Hr'.
  pose proof (reachable_inv _ Hr') as Hinv'.
  destruct (exec_returned _ _ _ _ _ Hexec Hw Hp) as [Hw' _].
  split; [done |]. split; [|split].
  - intros crn. unfold answer.
    destruct (serve _ s') as [[a s1]|] eqn:E; [|done]. intros [= ->].
    apply serve_start_Started in E as (_ & _ & _ & E). congruence.
  - unfold answer.
    destruct (serve _ s') as [[a s1]|] eqn:E; [|done]. intros [= ->].
    apply serve_stop_Stopped in E
      as (_ & _ & c & wid0 & Hsub0 & _ & Hrecv).
    assert (c = w_stopChan w) as -> by congruence.
    assert (wid = wid0) as <- by (by eapply receiver_unique).
    apply receiver_Some in Hrecv as (w0 & Hw0 & _ & Hp0). congruence.
  - unfold answer.
    destruct (serve _ s') as [[a s1]|] eqn:E; [|done]. intros [= ->].
    apply serve_stop_NotFound in E. congruence.
Qed.

Lemma abandoned_entry_stays_witness :
  let s' := after (alice_failed ++ [Arrive (Stop alice); Handler 1]) in
  subscriptions s' !! alice = Some 0%nat
  ∧ (∀ crn, answer (Start alice crn) s' ≠ Some Started)
  ∧ answer (Stop alice) s' ≠ Some Stopped
  ∧ answer (Stop alice) s' ≠ Some NotFound.
Proof.
  cbv zeta.
  apply (abandoned_entry_stays [Arrive (Stop alice); Handler 1]
           (after alice_failed) _ 0 (Watcher alice "12345" 0%nat WReturned)).
  - apply after_reachable. by vm_compute.
  - by vm_compute.
  - done.
  - assert (signals (trace (after alice_failed)) = []) as ->
      by (by vm_compute).
    apply not_elem_of_nil.
  - by vm_compute.
  - by vm_compute.
Defined.

End Abandoned.

Section Mails.

Lemma mails_poll (wid : nat) (email crn : string) (o : http_outcome)
    (smtp : option error) (evs : list event) (pc : wpc)
    (e : string) (n : Z) (c : string) :
  pollOnce wid email crn o smtp = (evs, pc) →
  (e, n, c) ∈ mails evs → e = email ∧ c = crn ∧ 0 < n.
Proof.
  unfold pollOnce.
  destruct o as [| | | body];
    try (intros [= <- <-] Hin; by apply elem_of_nil in Hin).
  destruct (parseAvailableSeats body) as [k [err|]];
    [intros [= <- <-] Hin; by apply elem_of_nil in Hin |].
  destruct (Z.ltb_spec 0 k);
    [| intros [= <- <-] Hin; by apply elem_of_nil in Hin].
  intros [= <- <-]. destruct smtp; simpl;
    intros Hin%list_elem_of_singleton; by simplify_eq.
Qed.

Lemma step_new_mail (l : label) (s s' : state) (e : string) (n : Z)
    (c : string) :
  step l s = Some s' → (e, n, c) ∈ mails (trace s') →
  (e, n, c) ∈ mails (trace s)
  ∨ (0 < n ∧ ∃ wid w, goroutines s !! wid = Some w
                      ∧ w_email w = e ∧ w_crn w = c).
Proof.
  intros H Hin.
  step_cases H; simpl in Hin; try (by left);
    rewrite mails_app in Hin; apply elem_of_app in Hin as [Hin | Hin];
    try (by left); try (by apply elem_of_nil in Hin).
  right. destruct (mails_poll _ _ _ _ _ _ _ _ _ _ Hpoll Hin) as (-> & -> & ?).
  split; [done |]. by eexists _, _.
Qed.

Lemma step_goroutine_stays (l : label) (s s' : state) (wid : nat)
    (w : watcher) :
  step l s = Some s' → goroutines s !! wid = Some w →
  ∃ w', goroutines s' !! wid = Some w'
        ∧ w_email w' = w_email w ∧ w_crn w' = w_crn w
        ∧ w_stopChan w' = w_stopChan w.
Proof.
  intros H Hw.
  assert (Halter : ∀ i pc, ∃ w',
            alter (at_pc pc) i (goroutines s) !! wid = Some w'
            ∧ w_email w' = w_email w ∧ w_crn w' = w_crn w
            ∧ w_stopChan w' = w_stopChan w).
  { intros i pc. destruct (decide (i = wid)) as [-> | Hne].
    - exists (at_pc pc w). by rewrite list_lookup_alter_eq, Hw.
    - exists w. by rewrite list_lookup_alter_ne. }
  step_cases H; simpl; try (by exists w); try apply Halter.
  exists w. split; [by apply lookup_snoc_old | done].
Qed.

(** X10.  Every mail the program sends reports a positive number of
    seats, and goes to the address of a goroutine that was launched for
    that address and that CRN (lines 118-120 and 138-149). *)
Theorem mails_go_to_subscribers (s : state) (e : string) (n : Z)
    (c : string) :
  reachable s → (e, n, c) ∈ mails (trace s) →
  0 < n ∧ ∃ wid w, goroutines s !! wid = Some w
                   ∧ w_email w = e ∧ w_crn w = c.
Proof.
  intros [ls Hexec]. revert Hexec.
  assert (Hgen : ∀ s0,
            (∀ e n c, (e, n, c) ∈ mails (trace s0) →
               0 < n ∧ ∃ wid w, goroutines s0 !! wid = Some w
                                ∧ w_email w = e ∧ w_crn w = c) →
            exec ls s0 = Some s →
            ∀ e n c, (e, n, c) ∈ mails (trace s) →
               0 < n ∧ ∃ wid w, goroutines s !! wid = Some w
                                ∧ w_email w = e ∧ w_crn w = c).
  { induction ls as [|l ls IH]; intros s0 H0; simpl.
    - by intros [= <-].
    - destruct (step l s0) as [s1|] eqn:E; [|done].
      apply IH. intros e1 n1 c1 Hin.
      destruct (step_new_mail _ _ _ _ _ _ E Hin)
        as [Hold | (Hpos & wid & w & Hw & He & Hc)].
      + destruct (H0 _ _ _ Hold) as (Hpos & wid & w & Hw & He & Hc).
        split; [done |].
        destruct (step_goroutine_stays _ _ _ _ _ E Hw)
          as (w' & Hw' & He' & Hc' & _).
        exists wid, w'. split; [done |]. split; congruence.
      + split; [done |].
        destruct (step_goroutine_stays _ _ _ _ _ E Hw)
          as (w' & Hw' & He' & Hc' & _).
        exists wid, w'. split; [done |]. split; congruence. }
  intros Hexec Hin. apply (Hgen init); try done.
  intros ? ? ? H. by apply elem_of_nil in H.
Qed.

Lemma mails_go_to_subscribers_witness :
  let s := after (alice_polling ++ [Reply 0 (HttpBody (page "5")) None]) in
  0 < 5 ∧ ∃ wid w, goroutines s !! wid = Some w
                   ∧ w_email w = alice ∧ w_crn w = "12345".
Proof.
  cbv zeta. apply mails_go_to_subscribers.
  - apply after_reachable. by vm_compute.
  - assert (mails (trace (after (alice_polling
              ++ [Reply 0 (HttpBody (page "5")) None])))
            = [(alice, 5, "12345")]) as -> by (by vm_compute).
    constructor.
Defined.

End Mails.

Section StopAnyTime.

(** X11.  Whenever the goroutine of a non-empty address waits in its
    select and the mutex is free, a Stop for the address answers
    Stopped: the entry of that address is deleted and no other, its
    channel is closed, and that goroutine alone has returned
    (lines 65-72 and 121-123). *)
Theorem stop_waiting_watcher (s : state) (wid : nat) (w : watcher) :
  reachable s → subscriptionsMux s = None → w_email w ≠ "" →
  goroutines s !! wid = Some w → w_pc w = WSelect →
  ∃ s', serve (Stop (w_email w)) s = Some (Stopped, s')
        ∧ subscriptions s' = delete (w_email w) (subscriptions s)
        ∧ closed s' = w_stopChan w :: closed s
        ∧ goroutines s' = alter (at_pc WReturned) wid (goroutines s)
        ∧ subscriptionsMux s' = None.
Proof.
  intros Hr Hm He Hw Hp. pose proof (reachable_inv _ Hr) as Hinv.
  assert (Hrun : running w) by (unfold running; congruence).
  pose proof (inv_running _ Hinv _ _ Hw Hrun) as Hsub.
  assert (Hcl : w_stopChan w ∉ closed s).
  { intros Hcl. destruct (inv_closed _ Hinv _ Hcl) as [Hsig _].
    pose proof (inv_signalled _ Hinv _ _ _ Hsig Hw eq_refl). congruence. }
  destruct (receiver (w_stopChan w) (goroutines s)) as [wid0|] eqn:Hrecv.
  2: { exfalso. by eapply (proj1 (receiver_None _ _) Hrecv wid w). }
  assert (wid = wid0) as <- by (by eapply receiver_unique).
  eexists. split; [by eapply serve_stop_hit |]. done.
Qed.

Lemma stop_waiting_watcher_witness :
  ∃ s', serve (Stop alice) (after alice_started) = Some (Stopped, s')
        ∧ subscriptions s' = delete alice (subscriptions (after alice_started))
        ∧ closed s' = 0%nat :: closed (after alice_started)
        ∧ goroutines s'
          = alter (at_pc WReturned) 0%nat (goroutines (after alice_started))
        ∧ subscriptionsMux s' = None.
Proof.
  apply (stop_waiting_watcher (after alice_started) 0
           (Watcher alice "12345" 0%nat WSelect)).
  - apply after_reachable. by vm_compute.
  - by vm_compute.
  - done.
  - by vm_compute.
  - done.
Defined.

End StopAnyTime.

Section Frame.

Lemma serve_start_locked (s : state) (email crn : string) (tid : nat) :
  subscriptionsMux s = Some tid → email ≠ "" → crn ≠ "" →
  serve (Start email crn) s = None.
Proof.
  intros Hm He Hc. serve_start s. serve_step.
  eapply run_handler_stuck; [apply lookup_last | done |].
  by rewrite handler_step_serving.
Qed.

Lemma serve_stop_locked (s : state) (email : string) (tid : nat) :
  subscriptionsMux s = Some tid → email ≠ "" →
  serve (Stop email) s = None.
Proof.
  intros Hm He. serve_start s. serve_step.
  eapply run_handler_stuck; [apply lookup_last | done |].
  by rewrite handler_step_serving.
Qed.

Lemma serve_effect (s s' : state) (r : request) (a : response) :
  serve r s = Some (a, s') →
  (subscriptions s' = subscriptions s ∧ goroutines s' = goroutines s)
  ∨ (∃ crn, subscriptions s' =
              <[request_email r := chans s]> (subscriptions s)
            ∧ goroutines s' =
                goroutines s
                  ++ [Watcher (request_email r) crn (chans s) WSelect])
  ∨ (∃ c wid, subscriptions s !! request_email r = Some c
              ∧ receiver c (goroutines s) = Some wid
              ∧ subscriptions s' = delete (request_email r) (subscriptions s)
              ∧ goroutines s' =
                  alter (at_pc WReturned) wid (goroutines s)).
Proof.
  intros H. destruct r as [email crn | email]; simpl.
  - destruct (decide (email = "" ∨ crn = "")) as [Hbad | Hok].
    { rewrite serve_start_bad in H by done. injection H as <- <-.
      by left. }
    destruct (subscriptionsMux s) as [tid|] eqn:Hm.
    { rewrite (serve_start_locked s email crn tid) in H; [done | done | tauto | tauto]. }
    destruct (subscriptions s !! email) as [c|] eqn:Hsub.
    + rewrite (serve_start_dup s email crn c) in H by tauto.
      injection H as <- <-. by left.
    + rewrite serve_start_new in H by tauto. injection H as <- <-.
      right. left. by exists crn.
  - destruct (decide (email = "")) as [-> | Hok].
    { rewrite serve_stop_bad in H. injection H as <- <-. by left. }
    destruct (subscriptionsMux s) as [tid|] eqn:Hm.
    { by rewrite (serve_stop_locked s email tid) in H. }
    destruct (subscriptions s !! email) as [c|] eqn:Hsub.
    2: { rewrite serve_stop_miss in H by done. injection H as <- <-.
         by left. }
    destruct (decide (c ∈ closed s)) as [Hcl | Hcl].
    { by rewrite (serve_stop_panic s email c) in H. }
    destruct (receiver c (goroutines s)) as [wid|] eqn:Hrecv.
    2: { by rewrite (serve_stop_blocked s email c) in H. }
    rewrite (serve_stop_hit s email c wid) in H by done.
    injection H as <- <-. right. right. by exists c, wid.
Qed.

Lemma filter_alter_other (P : watcher → Prop) `{∀ w, Decision (P w)}
    (f : watcher → watcher) (gs : list watcher) (wid : nat) (w : watcher) :
  gs !! wid = Some w → ¬ P w → ¬ P (f w) →
  filter P (alter f wid gs) = filter P gs.
Proof.
  revert wid. induction gs as [|g gs IH]; intros [|wid] Hw Hn Hn';
    try done.
  - injection Hw as ->.
    change (alter f 0%nat (w :: gs)) with (f w :: gs).
    by rewrite !filter_cons, !decide_False.
  - change (alter f (S wid) (g :: gs)) with (g :: alter f wid gs).
    rewrite !filter_cons. by rewrite (IH wid).
Qed.

(** X12.  A request about one address, whatever it answers, leaves the
    entry and the running goroutines of every other address as they
    were. *)
Theorem other_addresses_untouched (s s' : state) (r : request)
    (a : response) (email' : string) :
  reachable s → serve r s = Some (a, s') → request_email r ≠ email' →
  subscriptions s' !! email' = subscriptions s !! email'
  ∧ watchers_of email' s' = watchers_of email' s.
Proof.
  intros Hr H Hne. pose proof (reachable_inv _ Hr) as Hinv.
  destruct (serve_effect _ _ _ _ H)
    as [[-> Hg] | [(crn & -> & Hg) | (c & wid & Hsub & Hrecv & -> & Hg)]];
    unfold watchers_of; rewrite Hg.
  - done.
  - split; [by rewrite lookup_insert_ne |].
    rewrite filter_app. simpl.
    rewrite filter_cons, decide_False; [by rewrite app_nil_r |].
    simpl. by intros [? _].
  - split; [by rewrite lookup_delete_ne |].
    apply receiver_Some in Hrecv as (w & Hw & Hc & Hp).
    assert (Hrun : running w) by (unfold running; congruence).
    pose proof (inv_running _ Hinv _ _ Hw Hrun) as Hreg.
    assert (w_email w = request_email r).
    { apply (inv_sub_inj _ Hinv _ _ c); congruence. }
    apply (filter_alter_other _ _ _ _ w); simpl; try done;
      intros [? _]; congruence.
Qed.

Lemma other_addresses_untouched_witness :
  ∃ s', serve (Stop alice) (after (alice_started ++
            Arrive (Start bob "67890") :: replicate 6 (Handler 1)))
        = Some (Stopped, s')
        ∧ subscriptions s' !! bob = Some 1%nat
        ∧ watchers_of bob s' = [Watcher bob "67890" 1%nat WSelect].
Proof.
  set (s := after (alice_started ++
            Arrive (Start bob "67890") :: replicate 6 (Handler 1))).
  assert (H : ∃ s', serve (Stop alice) s = Some (Stopped, s')).
  { eexists. by vm_compute. }
  destruct H as [s' H]. exists s'. split; [done |].
  assert (Hr : reachable s) by (apply after_reachable; by vm_compute).
  assert (Hne : request_email (Stop alice) ≠ bob) by done.
  pose proof (other_addresses_untouched s s' (Stop alice) Stopped bob
                Hr H Hne) as [Hsub Hw].
  split.
  - transitivity (subscriptions s !! bob); [exact Hsub | by vm_compute].
  - rewrite Hw. by vm_compute.
Defined.

End Frame.

Section ParsedCount.

Lemma digit_val_nonneg (c : ascii) : is_digit c = true → 0 ≤ digit_val c.
Proof.
  unfold is_digit, digit_val. intros H.
  apply andb_true_iff in H as [H _]. apply Nat.leb_le in H. lia.
Qed.

Lemma decimal_from_nonneg (acc : Z) (s : string) :
  0 ≤ acc → all_digits s = true → 0 ≤ decimal_from acc s.
Proof.
  revert acc. induction s as [|c s IH]; intros acc Hacc; simpl; [done |].
  intros H. apply andb_true_iff in H as [Hc Hs].
  apply IH; [|done]. pose proof (digit_val_nonneg c Hc). lia.
Qed.

(** X13.  When [parseAvailableSeats] returns a count without an error,
    the page has a match of the pattern, the count is the integer of the
    numeral of the leftmost match and fits an int, and it is negative
    only if that numeral begins with a minus sign (lines 128-136). *)
Theorem parsed_count_is_captured (html : string) (n : Z) :
  parseAvailableSeats html = (n, None) →
  ∃ cap, leftmost_capture html cap
         ∧ n = int_of_decimal cap
         ∧ minInt ≤ n ≤ maxInt
         ∧ (n < 0 → ∃ ds, cap = String "-" ds).
Proof.
  intros H. destruct (Find_shape html) as [E | [cap E]].
  { apply Find_none in E. by rewrite (parse_no_match _ E) in H. }
  apply Find_some in E. exists cap. split; [done |].
  pose proof (leftmost_capture_number _ _ E) as Hnum.
  rewrite (parse_match _ _ E), (Atoi_number _ Hnum) in H. cbv zeta in H.
  destruct (Z.ltb_spec (int_of_decimal cap) minInt); [done |].
  destruct (Z.ltb_spec maxInt (int_of_decimal cap)); [done |].
  injection H as <-. split; [done |]. split; [done |].
  intros Hneg. destruct Hnum as (ds & Hne & Hds & [-> | ->]);
    [| by exists ds].
  exfalso. destruct ds as [|d ds]; [done |].
  assert (int_of_decimal (String d ds) = decimal_from 0 (String d ds)) as E'.
  { simpl in Hds. apply andb_true_iff in Hds as [Hd _].
    unfold int_of_decimal.
    destruct d as [[] [] [] [] [] [] [] []]; try done. }
  rewrite E' in Hneg.
  pose proof (decimal_from_nonneg 0 (String d ds) ltac:(done) Hds). lia.
Qed.

Lemma parsed_count_is_captured_witness :
  ∃ cap, leftmost_capture (page "-3") cap
         ∧ -3 = int_of_decimal cap
         ∧ minInt ≤ -3 ≤ maxInt
         ∧ (-3 < 0 → ∃ ds, cap = String "-" ds).
Proof.
  apply (parsed_count_is_captured (page "-3") (-3)). by vm_compute.
Defined.

End ParsedCount.

Section Deadlock.

Lemma step_stuck_sender (l : label) (s s' : state) (tid : nat)
    (email : string) (wid : nat) (w : watcher) :
  inv s → step l s = Some s' →
  handlers s !! tid = Some (StopSend email (w_stopChan w)) →
  goroutines s !! wid = Some w → w_pc w = WReturned →
  subscriptionsMux s' = Some tid
  ∧ handlers s' !! tid = Some (StopSend email (w_stopChan w)).
Proof.
  intros Hinv H Hpc Hw Hp.
  pose proof (inv_lock _ Hinv _ _ Hpc I) as Hm.
  step_cases H; simpl;
    try (split; [done | by apply lookup_snoc_old]);
    try (split; [done | done]);
    try congruence.
  all: match goal with
       | Hh : handlers _ !! ?t = Some ?pc |- context [<[?t := _]> _] =>
           destruct (decide (t = tid)) as [-> | Hne];
           [ rewrite Hpc in Hh; simplify_eq
           | first
               [ split; [done | by apply lookup_goto_ne]
               | exfalso; pose proof (inv_lock _ Hinv t pc Hh I);
                 congruence ] ]
       end.
  all: exfalso.
  all: apply receiver_Some in Hrecv as (w0 & Hw0 & Hc0 & Hp0).
  all: pose proof (inv_go_inj _ Hinv _ _ _ _ Hw0 Hw Hc0) as ->.
  all: congruence.
Qed.

(** X14.  Once a Stop handler has reached the send of line 67 for a
    goroutine that has already returned, it waits there for ever with
    the mutex held: whatever happens next, the mutex is never released,
    and no Start and no Stop with well-formed parameters, for whatever
    address, is answered any more. *)
Theorem send_to_returned_blocks_all (ls : list label) (s s' : state)
    (tid : nat) (email : string) (wid : nat) (w : watcher) :
  reachable s →
  handlers s !! tid = Some (StopSend email (w_stopChan w)) →
  goroutines s !! wid = Some w → w_pc w = WReturned →
  exec ls s = Some s' →
  subscriptionsMux s' = Some tid
  ∧ handlers s' !! tid = Some (StopSend email (w_stopChan w))
  ∧ ∀ email' crn, email' ≠ "" → crn ≠ "" →
      answer (Start email' crn) s' = None
      ∧ answer (Stop email') s' = None.
Proof.
  intros Hr Hpc Hw Hp Hexec.
  assert (H : subscriptionsMux s' = Some tid
              ∧ handlers s' !! tid = Some (StopSend email (w_stopChan w))).
  { pose proof (reachable_inv _ Hr) as Hinv. clear Hr.
    revert s Hinv Hpc Hw Hexec.
    induction ls as [|l ls IH]; intros s Hinv Hpc Hw; simpl.
    - intros [= <-]. split; [|done]. by apply (inv_lock _ Hinv _ _ Hpc I).
    - destruct (step l s) as [s1|] eqn:E; [|done]. intros Hexec.
      destruct (step_stuck_sender _ _ _ _ _ _ _ Hinv E Hpc Hw Hp)
        as [_ Hpc1].
      apply (IH s1); try done.
      + by eapply step_inv.
      + by destruct (step_returned _ _ _ _ _ E Hw Hp). }
  destruct H as [Hm' Hpc']. split; [done |]. split; [done |].
  intros email' crn He Hc. unfold answer.
  by rewrite (serve_start_locked s' email' crn tid),
             (serve_stop_locked s' email' tid).
Qed.

Lemma send_to_returned_blocks_all_witness :
  let s' := after (alice_failed
                     ++ Arrive (Stop alice) :: replicate 3 (Handler 1)
                     ++ [Arrive (Start bob "67890"); Handler 2]) in
  subscriptionsMux s' = Some 1%nat
  ∧ handlers s' !! 1%nat = Some (StopSend alice 0%nat)
  ∧ ∀ email' crn, email' ≠ "" → crn ≠ "" →
      answer (Start email' crn) s' = None
      ∧ answer (Stop email') s' = None.
Proof.
  cbv zeta.
  apply (send_to_returned_blocks_all
           [Arrive (Start bob "67890"); Handler 2]
           (after (alice_failed
                     ++ Arrive (Stop alice) :: replicate 3 (Handler 1)))
           _ 1 alice 0 (Watcher alice "12345" 0%nat WReturned)).
  - apply after_reachable. by vm_compute.
  - by vm_compute.
  - by vm_compute.
  - done.
  - by vm_compute.
Defined.

End Deadlock.

Section RoundTrip.





End RoundTrip.
